(** * PrismLock: a time-locked vault over encrypted stake handles

    Shallow embedding of the [PrismLock] contract (Solidity ^0.8.24) and the
    properties its specification states about it.

    Storage, the contract's ether balance, the FHE access-control lists and
    the event log form an explicit [State]; every external function is a
    computation in a small state-and-revert monad [M].  A revert discards
    the whole working state of the call, as the EVM does.  The low-level
    [msg.sender.call{value: ...}("")] of [finalizeWithdrawal] hands control
    to code of the recipient, which may call back into the contract: that
    code is a [Script] of nested calls. *)

From Stdlib Require Import ZArith Lia.
From Stdlib.Strings Require Import Byte String.
From stdpp Require Import base numbers option list gmap sets.

Local Open Scope Z_scope.

(** ** Solidity value types *)

Abbreviation address := Z (only parsing).
Abbreviation bytes32 := Z (only parsing).
Abbreviation euint128 := Z (only parsing).
Abbreviation bytes := (list byte) (only parsing).

Definition max_uint64 : Z := 2 ^ 64 - 1.
Definition max_uint128 : Z := 2 ^ 128 - 1.
Definition max_uint256 : Z := 2 ^ 256 - 1.

(** Explicit narrowing conversions [uint64(x)] and [uint128(x)] truncate. *)
Definition uint64 (x : Z) : Z := x mod 2 ^ 64.
Definition uint128 (x : Z) : Z := x mod 2 ^ 128.

Definition days : Z := 86400.
Definition MIN_LOCK_DURATION : Z := 1 * days.
Definition MAX_LOCK_DURATION : Z := 365 * days.

(** ** Storage layout *)

Record StakeData := mkStakeData {
  encryptedAmount : euint128;
  lockDuration : Z;
  startTimestamp : Z;
  withdrawalRequested : bool;
  exists_ : bool
}.

Record StakeSummary := mkStakeSummary {
  summary_encryptedAmount : bytes32;
  summary_startTimestamp : Z;
  summary_unlockTimestamp : Z;
  summary_lockDuration : Z;
  summary_withdrawalRequested : bool;
  summary_exists : bool
}.

(** The value a mapping yields for a key that was never written, and the
    value [delete] leaves behind. *)
Definition zero_stake : StakeData := mkStakeData 0 0 0 false false.

Definition zero_summary : StakeSummary := mkStakeSummary 0 0 0 0 false false.

Inductive Event :=
| StakeCreated (user : address) (amount : Z) (duration : Z) (handle : bytes32)
| WithdrawalRequested (user : address) (handle : bytes32)
| WithdrawalFinalized (user : address) (amount : Z) (handle : bytes32).

(** The eight custom errors the contract declares, followed by the other
    ways a call can revert: inside [FHE.checkSignatures] (see
    [FHE_checkSignatures] below for [ProofVerificationFailed]), inside
    [abi.decode], through [require] with a reason string, and through a
    checked-arithmetic panic. *)
Inductive Error :=
| StakeAlreadyActive
| InvalidLockDuration
| InvalidStakeAmount
| StakeAmountTooLarge
| NoActiveStake
| LockPeriodActive
| WithdrawalAlreadyRequested
| WithdrawalNotRequested
| ProofVerificationFailed
| AbiDecodeReverted
| RequireFailed (reason : string)
| Panic (code : Z).

Record State := mkState {
  _stakes : gmap Z StakeData;
  balance : Z;
  allowed : gset (Z * Z);
  publiclyDecryptable : gset Z;
  events : list Event
}.

(** [_stakes[a]]: a mapping is total, unwritten slots read as zero. *)
Definition stake_of (m : gmap Z StakeData) (a : address) : StakeData :=
  default zero_stake (m !! a).

(** The three ways the contract writes to [_stakes]. *)
Inductive Write :=
| StoreStake (a : address) (d : StakeData)
| MarkRequested (a : address)
| DeleteStake (a : address).

Definition mark_requested (d : StakeData) : StakeData :=
  mkStakeData (encryptedAmount d) (lockDuration d) (startTimestamp d)
              true (exists_ d).

Definition apply_write (w : Write) (m : gmap Z StakeData) : gmap Z StakeData :=
  match w with
  | StoreStake a d => <[a := d]> m
  | MarkRequested a => <[a := mark_requested (stake_of m a)]> m
  | DeleteStake a => delete a m
  end.

Fixpoint replay (ws : list Write) (m : gmap Z StakeData) : gmap Z StakeData :=
  match ws with
  | [] => m
  | w :: rest => replay rest (apply_write w m)
  end.

Definition write_target (w : Write) : address :=
  match w with
  | StoreStake a _ | MarkRequested a | DeleteStake a => a
  end.

(** ** The execution monad

    A computation either finishes with a value, a new state and the list
    of storage writes it committed, or reverts with an error and nothing
    else.  The list of writes is a record of what was done to [_stakes],
    kept for the statements about its history; no computation reads it. *)

Inductive Outcome (A : Type) :=
| Ok (a : A) (st : State) (ws : list Write)
| Revert (e : Error).
Arguments Ok {A} a st ws.
Arguments Revert {A} e.

Definition M (A : Type) : Type := State -> Outcome A.

#[global] Instance M_ret : MRet M := fun A x st => Ok x st [].

#[global] Instance M_bind : MBind M := fun A B f m st =>
  match m st with
  | Ok a st1 ws1 =>
      match f a st1 with
      | Ok b st2 ws2 => Ok b st2 (ws1 ++ ws2)
      | Revert e => Revert e
      end
  | Revert e => Revert e
  end.

Definition revert {A} (e : Error) : M A := fun _ => Revert e.

Definition revert_if (b : bool) (e : Error) : M unit :=
  if b then revert e else mret tt.

Definition require (b : bool) (reason : string) : M unit :=
  if b then mret tt else revert (RequireFailed reason).

(** State updates, one per kind of effect. *)
Definition update_stakes (w : Write) (st : State) : State :=
  mkState (apply_write w (_stakes st)) (balance st) (allowed st)
          (publiclyDecryptable st) (events st).

Definition log_event (e : Event) (st : State) : State :=
  mkState (_stakes st) (balance st) (allowed st) (publiclyDecryptable st)
          (events st ++ [e]).

Definition grant (h : euint128) (who : address) (st : State) : State :=
  mkState (_stakes st) (balance st) ({[ (h, who) ]} ∪ allowed st)
          (publiclyDecryptable st) (events st).

Definition publish (h : euint128) (st : State) : State :=
  mkState (_stakes st) (balance st) (allowed st)
          ({[ h ]} ∪ publiclyDecryptable st) (events st).

(** [msg.value] is credited to the contract before a payable function runs. *)
Definition credit (v : Z) (st : State) : State :=
  mkState (_stakes st) (balance st + v) (allowed st)
          (publiclyDecryptable st) (events st).

Definition debit (v : Z) (st : State) : State :=
  mkState (_stakes st) (balance st - v) (allowed st)
          (publiclyDecryptable st) (events st).

Definition load_stake (a : address) : M StakeData :=
  fun st => Ok (stake_of (_stakes st) a) st [].

Definition write_stakes (w : Write) : M unit :=
  fun st => Ok tt (update_stakes w st) [w].

Definition emit (e : Event) : M unit :=
  fun st => Ok tt (log_event e st) [].

(** Checked [uint256] addition: overflow panics with code 0x11. *)
Definition checked_add (a b : Z) : M Z :=
  if a + b <=? max_uint256 then mret (a + b) else revert (Panic 17).

(** ** ABI decoding of a single [uint128]

    [abi.decode(data, (uint128))] reads the first 32-byte word, big endian;
    it reverts when fewer than 32 bytes are present or the word does not
    fit 128 bits.  Trailing bytes are ignored. *)

Definition be_to_Z (bs : bytes) : Z :=
  fold_left (fun acc b => acc * 256 + Z.of_N (Byte.to_N b)) bs 0.

Definition decode_uint128 (data : bytes) : option Z :=
  if (length data <? 32)%nat then None
  else let w := be_to_Z (take 32 data) in
       if w <=? max_uint128 then Some w else None.

Definition abi_decode_uint128 (data : bytes) : M Z :=
  match decode_uint128 data with
  | Some w => mret w
  | None => revert AbiDecodeReverted
  end.

(** ** The FHE library

    The contract is written against the [FHE] library of
    [@fhevm/solidity], whose code is not part of the repository.  What
    the library computes is left open: the handle [FHE.asEuint128] yields
    for a cleartext, and whether [FHE.checkSignatures] accepts a proof.
    What its calls do to the state follows the spec's description of the
    encryption gateway and the proof verifier. *)

Class FHE := {
  fhe_asEuint128 : Z -> euint128;
  fhe_checkSignatures : list bytes32 -> bytes -> bytes -> bool
}.

(** Modelled from the spec: [FHE.toBytes32], the gateway's canonical byte
    serialization of a handle.  An [euint128] is a 256-bit handle, and its
    serialization is that handle. *)
Definition FHE_toBytes32 (h : euint128) : bytes32 := h.

(** Modelled from the spec: [FHE.allow], the gateway's
    [grantAccess(handle, principal)].  The grant is recorded; the call
    returns. *)
Definition FHE_allow (h : euint128) (who : address) : M unit :=
  fun st => Ok tt (grant h who st) [].

(** Modelled from the spec: [FHE.makePubliclyDecryptable], the gateway's
    [markPubliclyDecryptable(handle)], monotone and irreversible: the
    handle joins the publicly decryptable ones, and nothing removes it. *)
Definition FHE_makePubliclyDecryptable (h : euint128) : M unit :=
  fun st => Ok tt (publish h st) [].

(** [to.call{value: amount}("")]: fails without effect when the contract
    cannot pay; otherwise the value leaves the contract and the recipient's
    code runs.  If that code fails, everything it did, and the payment, is
    undone and the call yields [false]. *)
Definition call_value (recipient_code : State -> option (State * list Write))
    (amount : Z) : M bool :=
  fun st =>
    if balance st <? amount then Ok false st []
    else match recipient_code (debit amount st) with
         | Some (st', ws) => Ok true st' ws
         | None => Ok false st []
         end.

Section Contract.
Context `{FHE}.
(** [address(this)] *)
Variable this : address.

(** Modelled from the spec: [FHE.checkSignatures], the spec's
    [ProofVerifier.verify(handles, cleartextEncoding, proof)].  It
    succeeds iff the trust authority's signature over the handles and the
    cleartext encoding validates against the proof, which
    [fhe_checkSignatures] decides; otherwise it fails with
    [ProofVerificationFailed]. *)
Definition FHE_checkSignatures (handles : list bytes32)
    (abiEncodedCleartexts decryptionProof : bytes) : M unit :=
  if fhe_checkSignatures handles abiEncodedCleartexts decryptionProof
  then mret tt else revert ProofVerificationFailed.

Definition FHE_allowThis (h : euint128) : M unit := FHE_allow h this.

Definition stake (msg_sender : address) (msg_value block_timestamp : Z)
    (lockDurationSeconds : Z) : M unit :=
  data ← load_stake msg_sender;
  revert_if (exists_ data) StakeAlreadyActive;;
  revert_if ((lockDurationSeconds <? MIN_LOCK_DURATION)
             || (MAX_LOCK_DURATION <? lockDurationSeconds))
            InvalidLockDuration;;
  revert_if (msg_value =? 0) InvalidStakeAmount;;
  revert_if (max_uint128 <? msg_value) StakeAmountTooLarge;;
  let clearAmount := uint128 msg_value in
  let encrypted := fhe_asEuint128 clearAmount in
  write_stakes (StoreStake msg_sender
    (mkStakeData encrypted lockDurationSeconds (uint64 block_timestamp)
                 false true));;
  FHE_allow encrypted msg_sender;;
  FHE_allowThis encrypted;;
  emit (StakeCreated msg_sender clearAmount lockDurationSeconds
                     (FHE_toBytes32 encrypted)).

Definition getStakeSummary (user : address) : M StakeSummary :=
  data ← load_stake user;
  unlockTimestamp ←
    (if exists_ data
     then checked_add (startTimestamp data) (lockDuration data)
     else mret 0);
  let handle :=
    if exists_ data then FHE_toBytes32 (encryptedAmount data) else 0 in
  mret (mkStakeSummary handle
          (if exists_ data then startTimestamp data else 0)
          unlockTimestamp
          (lockDuration data)
          (withdrawalRequested data)
          (exists_ data)).

Definition getEncryptedAmount (user : address) : M bytes32 :=
  data ← load_stake user;
  if negb (exists_ data) then mret 0
  else mret (FHE_toBytes32 (encryptedAmount data)).

Definition hasStake (user : address) : M bool :=
  data ← load_stake user;
  mret (exists_ data).

Definition requestWithdrawal (msg_sender : address) (block_timestamp : Z)
    : M unit :=
  data ← load_stake msg_sender;
  revert_if (negb (exists_ data)) NoActiveStake;;
  unlock ← checked_add (startTimestamp data) (lockDuration data);
  revert_if (block_timestamp <? unlock) LockPeriodActive;;
  revert_if (withdrawalRequested data) WithdrawalAlreadyRequested;;
  write_stakes (MarkRequested msg_sender);;
  FHE_makePubliclyDecryptable (encryptedAmount data);;
  emit (WithdrawalRequested msg_sender
                            (FHE_toBytes32 (encryptedAmount data))).

Definition finalizeWithdrawal
    (recipient_code : State -> option (State * list Write))
    (msg_sender : address)
    (abiEncodedCleartexts decryptionProof : bytes) : M unit :=
  data ← load_stake msg_sender;
  revert_if (negb (exists_ data)) NoActiveStake;;
  revert_if (negb (withdrawalRequested data)) WithdrawalNotRequested;;
  let handles := [FHE_toBytes32 (encryptedAmount data)] in
  FHE_checkSignatures handles abiEncodedCleartexts decryptionProof;;
  decryptedAmount ← abi_decode_uint128 abiEncodedCleartexts;
  write_stakes (DeleteStake msg_sender);;
  sent ← call_value recipient_code decryptedAmount;
  require sent "ETH transfer failed"%string;;
  emit (WithdrawalFinalized msg_sender decryptedAmount (handles !!! 0%nat)).

End Contract.

(** ** The states the three functions lead to *)

Section Effects.
Context `{FHE}.
Variable this : address.

(** The record [stake] writes. *)
Definition fresh_stake (msg_value block_timestamp lockDurationSeconds : Z)
    : StakeData :=
  mkStakeData (fhe_asEuint128 (uint128 msg_value)) lockDurationSeconds
              (uint64 block_timestamp) false true.

Definition staked (a : address) (v now d : Z) (st : State) : State :=
  log_event (StakeCreated a (uint128 v) d (fhe_asEuint128 (uint128 v)))
    (grant (fhe_asEuint128 (uint128 v)) this
      (grant (fhe_asEuint128 (uint128 v)) a
        (update_stakes (StoreStake a (fresh_stake v now d)) st))).

Definition requested (a : address) (st : State) : State :=
  let h := encryptedAmount (stake_of (_stakes st) a) in
  log_event (WithdrawalRequested a h)
    (publish h (update_stakes (MarkRequested a) st)).

Definition transfer_failed : Error := RequireFailed "ETH transfer failed".

(** The state in which the recipient's code starts to run: the record is
    gone and the payout has left the contract. *)
Definition at_transfer (a : address) (amount : Z) (st : State) : State :=
  debit amount (update_stakes (DeleteStake a) st).

End Effects.

(** ** Calls and recipient code

    A [Call] is one invocation of a state-changing external function.
    [FinalizeWithdrawal] carries the code that the recipient of the payout
    runs when it receives the ether.  That code is a [Script]: it places
    further calls to the contract, each under some [msg.sender] (the
    recipient itself, or any contract it drives), goes on whether or not
    they revert, and finally accepts the payment or rejects it. *)

Inductive Call :=
| Stake (lockDurationSeconds : Z) (msg_value : Z)
| RequestWithdrawal
| FinalizeWithdrawal (abiEncodedCleartexts decryptionProof : bytes)
                     (receiver : Script)
with Script :=
| Accept
| Reject
| Then (msg_sender : address) (c : Call) (rest : Script).

Scheme Call_Script_ind := Induction for Call Sort Prop
  with Script_Call_ind := Induction for Script Sort Prop.
Combined Scheme Call_Script_mutind from Call_Script_ind, Script_Call_ind.

Section Execution.
Context `{FHE}.
Variable this : address.
(** [block.timestamp]; it is the same for all calls of one transaction. *)
Variable now : Z.

Fixpoint exec_call (msg_sender : address) (c : Call) (st : State)
    : Outcome unit :=
  match c with
  | Stake lockDurationSeconds msg_value =>
      stake this msg_sender msg_value now lockDurationSeconds
            (credit msg_value st)
  | RequestWithdrawal => requestWithdrawal msg_sender now st
  | FinalizeWithdrawal cleartexts proof receiver =>
      finalizeWithdrawal (exec_script receiver) msg_sender cleartexts proof st
  end
with exec_script (r : Script) (st : State) : option (State * list Write) :=
  match r with
  | Accept => Some (st, [])
  | Reject => None
  | Then sender c rest =>
      match exec_call sender c st with
      | Ok _ st1 ws1 =>
          match exec_script rest st1 with
          | Some (st2, ws2) => Some (st2, ws1 ++ ws2)
          | None => None
          end
      | Revert _ => exec_script rest st
      end
  end.

(** What a caller sees: the state after the call (unchanged if the call
    reverted) and the error, if any. *)
Definition state_after (msg_sender : address) (c : Call) (st : State) : State :=
  match exec_call msg_sender c st with
  | Ok _ st' _ => st'
  | Revert _ => st
  end.

Definition error_of (msg_sender : address) (c : Call) (st : State)
    : option Error :=
  match exec_call msg_sender c st with
  | Ok _ _ _ => None
  | Revert e => Some e
  end.

Definition writes_of (msg_sender : address) (c : Call) (st : State)
    : list Write :=
  match exec_call msg_sender c st with
  | Ok _ _ ws => ws
  | Revert _ => []
  end.

End Execution.

(** ** Transactions and reachable states *)

Record Tx := mkTx {
  tx_timestamp : Z;
  tx_sender : address;
  tx_call : Call
}.

Section Chain.
Context `{FHE}.
Variable this : address.

Definition run_tx (st : State) (tx : Tx) : State :=
  state_after this (tx_timestamp tx) (tx_sender tx) (tx_call tx) st.

Definition tx_writes (st : State) (tx : Tx) : list Write :=
  writes_of this (tx_timestamp tx) (tx_sender tx) (tx_call tx) st.

Fixpoint run_txs (txs : list Tx) (st : State) : State :=
  match txs with
  | [] => st
  | tx :: rest => run_txs rest (run_tx st tx)
  end.

(** The storage writes a sequence of transactions commits, in order. *)
Fixpoint history (txs : list Tx) (st : State) : list Write :=
  match txs with
  | [] => []
  | tx :: rest => tx_writes st tx ++ history rest (run_tx st tx)
  end.

(** A state is reachable when transactions lead to it from a deployment,
    where [_stakes] is empty. *)
Inductive reachable : State -> Prop :=
| reachable_deployed st : _stakes st = ∅ -> reachable st
| reachable_tx st tx : reachable st -> reachable (run_tx st tx).

End Chain.

(** ** Predicates on storage *)

(** The fields of a stored record are within their declared widths. *)
Definition well_typed (d : StakeData) : Prop :=
  0 <= lockDuration d <= max_uint64 /\ 0 <= startTimestamp d <= max_uint64.

(** Every slot that was written and not deleted holds a live record whose
    duration passed the bounds check. *)
Definition ledger_inv (m : gmap Z StakeData) : Prop :=
  forall a d, m !! a = Some d ->
    exists_ d = true /\
    MIN_LOCK_DURATION <= lockDuration d <= MAX_LOCK_DURATION /\
    0 <= startTimestamp d <= max_uint64.

(** What must hold of an account's slot across one storage write, when the
    account has a record before and after it. *)
Definition record_stable (d d' : StakeData) : Prop :=
  exists_ d = true -> exists_ d' = true ->
    lockDuration d' = lockDuration d /\
    startTimestamp d' = startTimestamp d /\
    (withdrawalRequested d = true -> withdrawalRequested d' = true).

Definition write_stable (w : Write) (m : gmap Z StakeData) : Prop :=
  forall x, record_stable (stake_of m x) (stake_of (apply_write w m) x).

(** When the contract makes each kind of write: [stake] stores a fresh
    record over an empty slot, [requestWithdrawal] marks a live record
    that is not yet marked, [finalizeWithdrawal] deletes a marked one. *)
Definition legal (w : Write) (m : gmap Z StakeData) : Prop :=
  match w with
  | StoreStake a d =>
      exists_ (stake_of m a) = false /\
      exists_ d = true /\ withdrawalRequested d = false /\
      MIN_LOCK_DURATION <= lockDuration d <= MAX_LOCK_DURATION /\
      0 <= startTimestamp d <= max_uint64
  | MarkRequested a =>
      exists_ (stake_of m a) = true /\
      withdrawalRequested (stake_of m a) = false
  | DeleteStake a =>
      exists_ (stake_of m a) = true /\
      withdrawalRequested (stake_of m a) = true
  end.

Fixpoint legal_run (ws : list Write) (m : gmap Z StakeData) : Prop :=
  match ws with
  | [] => True
  | w :: rest => legal w m /\ legal_run rest (apply_write w m)
  end.

Definition stores_to (x : address) (w : Write) : bool :=
  match w with
  | StoreStake a _ => bool_decide (a = x)
  | _ => false
  end.

(** [ws] leads from the storage of [st] to that of [st'], every write in it
    is legal where it happens, and it only touches slots of [actors]. *)
Definition sound_run (actors : list address) (st : State) (ws : list Write)
    (st' : State) : Prop :=
  _stakes st' = replay ws (_stakes st) /\
  legal_run ws (_stakes st) /\
  Forall (fun w => write_target w ∈ actors) ws.

(** ** Syntactic views of recipient code *)

(** The accounts under which a call tree places nested calls. *)
Fixpoint nested_senders (c : Call) : list address :=
  match c with
  | Stake _ _ | RequestWithdrawal => []
  | FinalizeWithdrawal _ _ r => script_senders r
  end
with script_senders (r : Script) : list address :=
  match r with
  | Accept | Reject => []
  | Then s c rest => s :: nested_senders c ++ script_senders rest
  end.

(** Does [a] call [stake] anywhere in the tree? *)
Fixpoint restakes (a : address) (sender : address) (c : Call) : bool :=
  match c with
  | Stake _ _ => bool_decide (sender = a)
  | RequestWithdrawal => false
  | FinalizeWithdrawal _ _ r => script_restakes a r
  end
with script_restakes (a : address) (r : Script) : bool :=
  match r with
  | Accept | Reject => false
  | Then s c rest => restakes a s c || script_restakes a rest
  end.

(** A straight-line piece of recipient code, to be followed by more. *)
Fixpoint prefixed (p : list (address * Call)) (r : Script) : Script :=
  match p with
  | [] => r
  | (s, c) :: rest => Then s c (prefixed rest r)
  end.

Section Prefix.
Context `{FHE}.
Variable this : address.
Variable now : Z.

(** The state a straight-line piece of recipient code leaves behind. *)
Fixpoint run_prefix (p : list (address * Call)) (st : State) : State :=
  match p with
  | [] => st
  | (s, c) :: rest => run_prefix rest (state_after this now s c st)
  end.

End Prefix.

(** ** A deterministic FHE stand-in for concrete runs

    A handle is the cleartext shifted by a fixed offset; a proof is the
    single byte [x01] and verifies for one handle whose cleartext is the
    one encoded. *)

Definition demo_handle (v : Z) : euint128 := 2 ^ 200 + v.

Definition demo_check (handles : list bytes32) (cleartexts proof : bytes)
    : bool :=
  match handles, proof with
  | [h], [b] =>
      Byte.eqb b x01 &&
      match decode_uint128 cleartexts with
      | Some v => h =? demo_handle v
      | None => false
      end
  | _, _ => false
  end.

#[local] Instance demo_fhe : FHE :=
  {| fhe_asEuint128 := demo_handle; fhe_checkSignatures := demo_check |}.

(** The cleartexts a relayer hands back for one [uint128]: its 32-byte
    big-endian word. *)
Definition byte_of_Z (x : Z) : byte :=
  default x00 (Byte.of_N (Z.to_N (x mod 256))).

Fixpoint be_bytes (n : nat) (v : Z) : bytes :=
  match n with
  | O => []
  | S n' => be_bytes n' (v / 256) ++ [byte_of_Z v]
  end.

Definition encode_cleartext (v : Z) : bytes := be_bytes 32 v.

Definition vault : address := 4096.
Definition alice : address := 1.
Definition bob : address := 2.

Definition ether : Z := 10 ^ 18.

Definition deployed : State := mkState ∅ 0 ∅ ∅ [].

(** Alice stakes 5 wei for one day at time 100 ... *)
Definition staked_once : State :=
  run_txs vault [mkTx 100 alice (Stake 86400 5)] deployed.

(** ... and asks for her withdrawal once the day is over. *)
Definition pending : State :=
  run_txs vault [mkTx 86500 alice RequestWithdrawal] staked_once.

Definition five : bytes := encode_cleartext 5.
Definition good_proof : bytes := [x01].
Definition bad_proof : bytes := [x02].

(** A stake taken at the last second a 64-bit timestamp can hold. *)
Definition late_stake : State :=
  run_txs vault [mkTx (2 ^ 64 - 1) alice (Stake 31536000 5)] deployed.

(** ** Steps of an execution

    Whatever calls a transaction nests, its effect on the state is a chain
    of four kinds of steps, each with what the code has checked before
    taking it: the body of a successful [stake], the body of a successful
    [requestWithdrawal], the part of [finalizeWithdrawal] up to the moment
    the payout leaves, and the event it emits once the recipient has
    returned.  [known] is what is known of every [msg.value]. *)

(** The [msg.value]s a call tree carries. *)
Fixpoint deposits (c : Call) : list Z :=
  match c with
  | Stake _ v => [v]
  | RequestWithdrawal => []
  | FinalizeWithdrawal _ _ r => script_deposits r
  end
with script_deposits (r : Script) : list Z :=
  match r with
  | Accept | Reject => []
  | Then _ c rest => deposits c ++ script_deposits rest
  end.

(** A [msg.value] is an unsigned 256-bit number. *)
Definition payable (v : Z) : Prop := 0 <= v <= max_uint256.

Section Steps.
Context `{FHE}.
Variable this : address.
Variable now : Z.
Variable known : Z -> Prop.

Inductive step : State -> State -> Prop :=
| step_stake a d v st :
    known v ->
    exists_ (stake_of (_stakes st) a) = false ->
    MIN_LOCK_DURATION <= d <= MAX_LOCK_DURATION ->
    v <> 0 -> v <= max_uint128 ->
    step st (staked this a v now d (credit v st))
| step_request a st :
    exists_ (stake_of (_stakes st) a) = true ->
    withdrawalRequested (stake_of (_stakes st) a) = false ->
    startTimestamp (stake_of (_stakes st) a)
      + lockDuration (stake_of (_stakes st) a) <= now ->
    step st (requested a st)
| step_payout a ct pf amount st :
    exists_ (stake_of (_stakes st) a) = true ->
    withdrawalRequested (stake_of (_stakes st) a) = true ->
    fhe_checkSignatures [encryptedAmount (stake_of (_stakes st) a)] ct pf
      = true ->
    decode_uint128 ct = Some amount ->
    amount <= balance st ->
    step st (at_transfer a amount st)
| step_finalized a amount h st :
    step st (log_event (WithdrawalFinalized a amount h) st).

End Steps.

(** ** The life of a record *)

Inductive Phase := Absent | Active | Pending.

Definition phase (d : StakeData) : Phase :=
  if exists_ d then (if withdrawalRequested d then Pending else Active)
  else Absent.

(** The only moves: a write takes the slot it targets from [Absent] to
    [Active], from [Active] to [Pending], or from [Pending] to [Absent]. *)
Definition moves (w : Write) (before after : Phase) : Prop :=
  match w with
  | StoreStake _ _ => before = Absent /\ after = Active
  | MarkRequested _ => before = Active /\ after = Pending
  | DeleteStake _ => before = Pending /\ after = Absent
  end.

(** Every record marked for withdrawal has its unlock time behind [t]. *)
Definition unlocked_by (t : Z) (m : gmap Z StakeData) : Prop :=
  forall a,
    exists_ (stake_of m a) = true ->
    withdrawalRequested (stake_of m a) = true ->
    startTimestamp (stake_of m a) + lockDuration (stake_of m a) <= t.

(** The owner of a record and the contract may use its handle, and the
    handle of a record marked for withdrawal is publicly decryptable. *)
Definition access_inv (this : address) (st : State) : Prop :=
  forall a,
    exists_ (stake_of (_stakes st) a) = true ->
    (encryptedAmount (stake_of (_stakes st) a), a) ∈ allowed st /\
    (encryptedAmount (stake_of (_stakes st) a), this) ∈ allowed st /\
    (withdrawalRequested (stake_of (_stakes st) a) = true ->
     encryptedAmount (stake_of (_stakes st) a) ∈ publiclyDecryptable st).

Section Timeline.
Context `{FHE}.
Variable this : address.

(** [reachable_at t st]: transactions with block times that never go back
    lead from a deployment to [st], the last block time being [t]. *)
Inductive reachable_at : Z -> State -> Prop :=
| reachable_at_deployed t st : _stakes st = ∅ -> reachable_at t st
| reachable_at_tx t st tx :
    reachable_at t st -> t <= tx_timestamp tx ->
    reachable_at (tx_timestamp tx) (run_tx this st tx).

End Timeline.

(** ** What the contract owes

    The ledger holds handles, not amounts.  Given what each handle
    decrypts to, the contract owes the sum over the live records. *)
Definition liabilities (decrypt : Z -> Z) (m : gmap Z StakeData) : Z :=
  map_fold (fun _ d acc => decrypt (encryptedAmount d) + acc) 0 m.

(** What the contract relies on the FHE library for: a handle decrypts to
    the cleartext it was made from, and a proof is accepted only for the
    cleartext its handle decrypts to. *)
Definition sound_fhe `{FHE} (decrypt : Z -> Z) : Prop :=
  (forall v, 0 <= v <= max_uint128 -> decrypt (fhe_asEuint128 v) = v) /\
  (forall h ct pf v,
      fhe_checkSignatures [h] ct pf = true ->
      decode_uint128 ct = Some v -> decrypt h = v).

Definition demo_decrypt (h : Z) : Z := h - 2 ^ 200.

(** Every stored handle stands for a positive amount of at most 128 bits. *)
Definition amounts_inv (decrypt : Z -> Z) (m : gmap Z StakeData) : Prop :=
  forall a d, m !! a = Some d ->
    0 < decrypt (encryptedAmount d) <= max_uint128.

(** The contract holds what it owes, and [base] on top of it. *)
Definition backed (decrypt : Z -> Z) (base : Z) (st : State) : Prop :=
  ledger_inv (_stakes st) /\
  amounts_inv decrypt (_stakes st) /\
  balance st = base + liabilities decrypt (_stakes st).

(** Access rights and the event log only grow from [st] to [st']. *)
Definition grows (st st' : State) : Prop :=
  allowed st ⊆ allowed st' /\
  publiclyDecryptable st ⊆ publiclyDecryptable st' /\
  events st `prefix_of` events st'.

(** ** Events and writes

    What an event announces and what a write does, account by account. *)
Inductive Change :=
| Created (a : address)
| Marked (a : address)
| Removed (a : address).

Definition announced (e : Event) : Change :=
  match e with
  | StakeCreated a _ _ _ => Created a
  | WithdrawalRequested a _ => Marked a
  | WithdrawalFinalized a _ _ => Removed a
  end.



(** Membership in lists built with [::] and [++]. *)
Ltac list_mem :=
  cbn; repeat intro;
  repeat match goal with
         | H : _ ∈ _ :: _ |- _ => apply elem_of_cons in H
         | H : _ ∈ _ ++ _ |- _ => apply elem_of_app in H
         | H : _ ∈ [] |- _ => by apply elem_of_nil in H
         | H : _ ∨ _ |- _ => destruct H
         end;
  subst; rewrite ?elem_of_cons, ?elem_of_app; tauto.

(** * Properties *)

(** ** Normal forms of the three state-changing functions *)

Section NormalForms.
Context `{FHE}.
Variable this : address.

Lemma stake_unfold a v now d st :
  stake this a v now d st =
    if exists_ (stake_of (_stakes st) a) then Revert StakeAlreadyActive
    else if (d <? MIN_LOCK_DURATION) || (MAX_LOCK_DURATION <? d)
    then Revert InvalidLockDuration
    else if v =? 0 then Revert InvalidStakeAmount
    else if max_uint128 <? v then Revert StakeAmountTooLarge
    else Ok tt (staked this a v now d st) [StoreStake a (fresh_stake v now d)].
Proof.
  unfold stake, mbind, M_bind, load_stake, revert_if.
  destruct (exists_ (stake_of (_stakes st) a)); [reflexivity|].
  destruct ((d <? MIN_LOCK_DURATION) || (MAX_LOCK_DURATION <? d));
    [reflexivity|].
  destruct (v =? 0); [reflexivity|].
  destruct (max_uint128 <? v); reflexivity.
Qed.

Lemma requestWithdrawal_unfold a now st :
  requestWithdrawal a now st =
    let d := stake_of (_stakes st) a in
    if negb (exists_ d) then Revert NoActiveStake
    else if max_uint256 <? startTimestamp d + lockDuration d
    then Revert (Panic 17)
    else if now <? startTimestamp d + lockDuration d
    then Revert LockPeriodActive
    else if withdrawalRequested d then Revert WithdrawalAlreadyRequested
    else Ok tt (requested a st) [MarkRequested a].
Proof.
  unfold requestWithdrawal, mbind, M_bind, load_stake, revert_if, checked_add.
  cbv zeta.
  destruct (exists_ (stake_of (_stakes st) a)); [|reflexivity]. cbn [negb].
  rewrite Z.ltb_antisym.
  destruct (_ <=? max_uint256); [|reflexivity]. cbn.
  destruct (now <? _); [reflexivity|].
  destruct (withdrawalRequested _); reflexivity.
Qed.

Lemma finalizeWithdrawal_unfold rc a ct pf st :
  finalizeWithdrawal rc a ct pf st =
    let d := stake_of (_stakes st) a in
    if negb (exists_ d) then Revert NoActiveStake
    else if negb (withdrawalRequested d) then Revert WithdrawalNotRequested
    else if negb (fhe_checkSignatures [encryptedAmount d] ct pf)
    then Revert ProofVerificationFailed
    else match decode_uint128 ct with
         | None => Revert AbiDecodeReverted
         | Some amount =>
             if balance st <? amount then Revert transfer_failed
             else match rc (at_transfer a amount st) with
                  | None => Revert transfer_failed
                  | Some (st', ws) =>
                      Ok tt (log_event (WithdrawalFinalized a amount
                                          (encryptedAmount d)) st')
                         (DeleteStake a :: ws)
                  end
         end.
Proof.
  unfold finalizeWithdrawal, mbind, M_bind, load_stake, revert_if,
    FHE_checkSignatures, abi_decode_uint128, call_value, FHE_toBytes32.
  cbv zeta.
  destruct (exists_ (stake_of (_stakes st) a)); [|reflexivity]. cbn [negb].
  destruct (withdrawalRequested _); [|reflexivity]. cbn [negb].
  destruct (fhe_checkSignatures _ _ _); [|reflexivity]. cbn [negb].
  destruct (decode_uint128 ct) as [amount|]; [|reflexivity]. cbn.
  destruct (balance st <? amount); [reflexivity|].
  unfold at_transfer.
  destruct (rc _) as [[st' ws]|]; [|reflexivity].
  cbn. by rewrite !app_nil_r.
Qed.

End NormalForms.

(** ** Storage writes *)

Lemma stake_of_store a d m x :
  stake_of (<[a := d]> m) x = if decide (a = x) then d else stake_of m x.
Proof.
  unfold stake_of. rewrite lookup_insert. by case_decide.
Qed.

Lemma stake_of_delete a m x :
  stake_of (delete a m) x = if decide (a = x) then zero_stake else stake_of m x.
Proof.
  unfold stake_of. rewrite lookup_delete. by case_decide.
Qed.

Lemma stake_of_apply_other w m x :
  write_target w <> x -> stake_of (apply_write w m) x = stake_of m x.
Proof.
  intros Hne. destruct w as [a d|a|a]; cbn in *;
    rewrite ?stake_of_store, ?stake_of_delete; by case_decide.
Qed.

Lemma replay_app ws1 ws2 m : replay (ws1 ++ ws2) m = replay ws2 (replay ws1 m).
Proof.
  revert m. induction ws1 as [|w ws1 IH]; intros m; cbn; [done|apply IH].
Qed.

Lemma replay_cons w ws m : replay (w :: ws) m = replay ws (apply_write w m).
Proof. reflexivity. Qed.

Lemma legal_run_app ws1 ws2 m :
  legal_run (ws1 ++ ws2) m <-> legal_run ws1 m /\ legal_run ws2 (replay ws1 m).
Proof.
  revert m. induction ws1 as [|w ws1 IH]; intros m; cbn.
  - tauto.
  - rewrite IH. tauto.
Qed.

Lemma replay_other ws m x :
  Forall (fun w => write_target w <> x) ws ->
  stake_of (replay ws m) x = stake_of m x.
Proof.
  revert m. induction ws as [|w ws IH]; intros m Hall; [reflexivity|].
  inversion Hall; subst. rewrite replay_cons, IH by assumption.
  by apply stake_of_apply_other.
Qed.

(** A legal write changes no live record's duration or start, and never
    clears a mark. *)
Lemma legal_stable w m : legal w m -> write_stable w m.
Proof.
  intros Hl x Hx Hx'. destruct w as [a d|a|a]; cbn in *.
  - rewrite stake_of_store in *. case_decide; subst; [|done].
    destruct Hl as [Hl _]. congruence.
  - rewrite stake_of_store in *. case_decide; subst; done.
  - rewrite stake_of_delete in *. case_decide; subst; done.
Qed.

(** A legal write keeps the storage invariant. *)
Lemma legal_inv w m : legal w m -> ledger_inv m -> ledger_inv (apply_write w m).
Proof.
  intros Hl Hinv x dx. destruct w as [a d|a|a]; cbn in *.
  - rewrite lookup_insert. case_decide; [|by apply Hinv].
    intros [= <-]. tauto.
  - rewrite lookup_insert. case_decide; [|by apply Hinv].
    intros [= <-]. subst x. unfold stake_of in *.
    destruct (m !! a) as [d|] eqn:Hd; cbn in *; [|by destruct Hl].
    by apply Hinv in Hd.
  - rewrite lookup_delete. case_decide; [done|by apply Hinv].
Qed.

Lemma legal_run_inv ws m :
  legal_run ws m -> ledger_inv m -> ledger_inv (replay ws m).
Proof.
  revert m. induction ws as [|w ws IH]; intros m; cbn; [done|].
  intros [Hw Hws] Hinv. apply IH; [done|].
  by apply legal_inv.
Qed.

(** Under the invariant, a slot without a live record reads as zero. *)
Lemma ledger_inv_zero m a :
  ledger_inv m -> exists_ (stake_of m a) = false -> stake_of m a = zero_stake.
Proof.
  intros Hinv. unfold stake_of. destruct (m !! a) as [d|] eqn:Hd; [|done].
  apply Hinv in Hd as [Hd _]. cbn. congruence.
Qed.

Lemma ledger_inv_typed m a :
  ledger_inv m -> well_typed (stake_of m a).
Proof.
  intros Hinv. unfold stake_of, well_typed.
  destruct (m !! a) as [d|] eqn:Hd; cbn.
  - apply Hinv in Hd as (_ & Hd & Hs). unfold MIN_LOCK_DURATION,
      MAX_LOCK_DURATION, days, max_uint64 in *. lia.
  - unfold max_uint64. lia.
Qed.

(** ** Every execution is a run of legal writes *)

Lemma sound_run_nil actors st st' :
  _stakes st' = _stakes st -> sound_run actors st [] st'.
Proof. intros Heq. repeat split; [done|constructor]. Qed.

Lemma sound_run_weaken actors actors' st ws st' :
  actors ⊆ actors' ->
  sound_run actors st ws st' -> sound_run actors' st ws st'.
Proof.
  intros Hsub (Hr & Hl & Ht). repeat split; [done..|].
  eapply Forall_impl; [exact Ht|]. intros w Hw. by apply Hsub.
Qed.

Lemma sound_run_app actors st1 ws1 st2 ws2 st3 :
  sound_run actors st1 ws1 st2 -> sound_run actors st2 ws2 st3 ->
  sound_run actors st1 (ws1 ++ ws2) st3.
Proof.
  intros (Hr1 & Hl1 & Ht1) (Hr2 & Hl2 & Ht2). repeat split.
  - by rewrite replay_app, <- Hr1.
  - apply legal_run_app. by rewrite <- Hr1.
  - by apply Forall_app.
Qed.

Lemma uint64_range x : 0 <= uint64 x <= max_uint64.
Proof.
  unfold uint64, max_uint64.
  pose proof (Z.mod_pos_bound x (2 ^ 64) ltac:(lia)). lia.
Qed.

Section Soundness.
Context `{FHE}.
Variable this : address.
Variable now : Z.

Lemma exec_call_stake a d v st :
  exec_call this now a (Stake d v) st =
  stake this a v now d (credit v st).
Proof. reflexivity. Qed.

Lemma exec_call_request a st :
  exec_call this now a RequestWithdrawal st = requestWithdrawal a now st.
Proof. reflexivity. Qed.

Lemma exec_call_finalize a ct pf r st :
  exec_call this now a (FinalizeWithdrawal ct pf r) st =
  finalizeWithdrawal (exec_script this now r) a ct pf st.
Proof. reflexivity. Qed.

Lemma exec_script_then s c rest st :
  exec_script this now (Then s c rest) st =
  match exec_call this now s c st with
  | Ok _ st1 ws1 =>
      match exec_script this now rest st1 with
      | Some (st2, ws2) => Some (st2, ws1 ++ ws2)
      | None => None
      end
  | Revert _ => exec_script this now rest st
  end.
Proof. reflexivity. Qed.

Lemma stake_sound a d v st st' ws :
  exec_call this now a (Stake d v) st = Ok tt st' ws ->
  sound_run [a] st ws st' /\ ws = [StoreStake a (fresh_stake v now d)].
Proof.
  rewrite exec_call_stake, stake_unfold. cbn [credit _stakes].
  destruct (exists_ (stake_of (_stakes st) a)) eqn:Hex; [done|].
  destruct (_ || _) eqn:Hdur; [done|].
  destruct (v =? 0); [done|]. destruct (max_uint128 <? v); [done|].
  intros [= <- <-]. split; [|done].
  apply orb_false_iff in Hdur as [Hlo Hhi].
  apply Z.ltb_ge in Hlo, Hhi.
  repeat split; cbn; try done.
  - apply uint64_range.
  - apply uint64_range.
  - repeat constructor.
Qed.

Lemma requestWithdrawal_sound a st st' ws :
  exec_call this now a RequestWithdrawal st = Ok tt st' ws ->
  sound_run [a] st ws st' /\ ws = [MarkRequested a].
Proof.
  rewrite exec_call_request, requestWithdrawal_unfold. cbv zeta.
  destruct (exists_ (stake_of (_stakes st) a)) eqn:Hex; [|done]. cbn [negb].
  destruct (max_uint256 <? _); [done|]. destruct (now <? _); [done|].
  destruct (withdrawalRequested _) eqn:Hwr; [done|].
  intros [= <- <-]. split; [|done].
  repeat split; cbn; try done. repeat constructor.
Qed.

Lemma exec_sound :
  (forall c a st st' ws,
      exec_call this now a c st = Ok tt st' ws ->
      sound_run (a :: nested_senders c) st ws st' /\
      forall x, restakes x a c = false ->
                Forall (fun w => stores_to x w = false) ws) /\
  (forall r st st' ws,
      exec_script this now r st = Some (st', ws) ->
      sound_run (script_senders r) st ws st' /\
      forall x, script_restakes x r = false ->
                Forall (fun w => stores_to x w = false) ws).
Proof.
  apply Call_Script_mutind.
  - (* stake *)
    intros d v a st st' ws Hex.
    apply stake_sound in Hex as [Hs ->]. split; [done|].
    intros x Hx. cbn in Hx. repeat constructor. cbn. done.
  - (* requestWithdrawal *)
    intros a st st' ws Hex.
    apply requestWithdrawal_sound in Hex as [Hs ->]. split; [done|].
    intros x _. by repeat constructor.
  - (* finalizeWithdrawal *)
    intros ct pf r IH a st st' ws.
    rewrite exec_call_finalize, finalizeWithdrawal_unfold. cbv zeta.
    destruct (exists_ (stake_of (_stakes st) a)) eqn:Hex; [|done].
    cbn [negb].
    destruct (withdrawalRequested _) eqn:Hwr; [|done]. cbn [negb].
    destruct (fhe_checkSignatures _ _ _); [|done]. cbn [negb].
    destruct (decode_uint128 ct) as [amount|]; [|done].
    destruct (balance st <? amount); [done|].
    destruct (exec_script this now r (at_transfer a amount st))
      as [[st2 ws2]|] eqn:Hr; [|done].
    intros [= <- <-]. apply IH in Hr as [(Hr & Hl & Ht) Hst].
    cbn [at_transfer debit update_stakes _stakes apply_write] in *.
    split.
    + repeat split; cbn; try done.
      constructor; [list_mem|].
      eapply Forall_impl; [exact Ht|]. list_mem.
    + intros x Hx. constructor; [done|]. by apply Hst.
  - (* accept *)
    intros st st' ws [= <- <-]. split; [by apply sound_run_nil|].
    intros; constructor.
  - (* reject *)
    intros st st' ws [=].
  - (* a nested call, then the rest *)
    intros s c IHc rest IHr st st' ws. rewrite exec_script_then.
    destruct (exec_call this now s c st) as [[] st1 ws1|e] eqn:Hc.
    + destruct (exec_script this now rest st1) as [[st2 ws2]|] eqn:Hrest;
        [|done].
      intros [= <- <-].
      apply IHc in Hc as [Hc Hcs]. apply IHr in Hrest as [Hrest Hrs].
      split.
      * eapply sound_run_app; (eapply sound_run_weaken; [|eassumption]);
          list_mem.
      * intros x Hx. cbn in Hx. apply orb_false_iff in Hx as [Hx1 Hx2].
        apply Forall_app. auto.
    + intros Hrest. apply IHr in Hrest as [Hrest Hrs]. split.
      * eapply sound_run_weaken; [|eassumption]. list_mem.
      * intros x Hx. cbn in Hx. apply orb_false_iff in Hx as [_ Hx2]. auto.
Qed.

End Soundness.

(** ** Decoding what was encoded *)

Lemma byte_of_Z_value x : Z.of_N (Byte.to_N (byte_of_Z x)) = x mod 256.
Proof.
  unfold byte_of_Z.
  pose proof (Z.mod_pos_bound x 256 ltac:(lia)) as Hx.
  destruct (Byte.of_N (Z.to_N (x mod 256))) as [b|] eqn:Hb; cbn.
  - apply Byte.to_of_N in Hb. rewrite Hb. lia.
  - apply Byte.of_N_None_iff in Hb. lia.
Qed.

Lemma be_to_Z_snoc l b :
  be_to_Z (l ++ [b]) = be_to_Z l * 256 + Z.of_N (Byte.to_N b).
Proof. unfold be_to_Z. by rewrite fold_left_app. Qed.

Lemma be_bytes_length n v : length (be_bytes n v) = n.
Proof.
  revert v. induction n as [|n IH]; intros v; cbn; [done|].
  rewrite length_app, IH. cbn. lia.
Qed.

Lemma be_to_Z_be_bytes n v :
  0 <= v -> be_to_Z (be_bytes n v) = v mod 256 ^ Z.of_nat n.
Proof.
  revert v. induction n as [|n IH]; intros v Hv.
  - cbn. by rewrite Z.mod_1_r.
  - cbn [be_bytes]. rewrite be_to_Z_snoc, byte_of_Z_value.
    rewrite IH by (apply Z.div_pos; lia).
    rewrite Nat2Z.inj_succ, Z.pow_succ_r by lia.
    assert (0 < 256 ^ Z.of_nat n) by (apply Z.pow_pos_nonneg; lia).
    rewrite Z.rem_mul_r by lia. lia.
Qed.

(** [abi.decode] gives back the number a well-formed word encodes. *)
Lemma decode_encode_cleartext v :
  0 <= v <= max_uint128 -> decode_uint128 (encode_cleartext v) = Some v.
Proof.
  intros Hv. unfold decode_uint128, encode_cleartext.
  rewrite be_bytes_length. cbn [Nat.ltb Nat.leb].
  rewrite firstn_all2 by (rewrite be_bytes_length; lia).
  rewrite be_to_Z_be_bytes by lia.
  assert (Hsmall : v mod 256 ^ Z.of_nat 32 = v).
  { apply Z.mod_small. unfold max_uint128 in Hv.
    assert (2 ^ 128 < 256 ^ Z.of_nat 32) by done. lia. }
  cbv zeta. rewrite Hsmall.
  destruct (Z.leb_spec v max_uint128); [done|lia].
Qed.

(** ** Staking *)

Section Staking.
Context `{FHE}.
Variable this : address.
Variable now : Z.

Lemma error_of_stake a d v st :
  error_of this now a (Stake d v) st =
    if exists_ (stake_of (_stakes st) a) then Some StakeAlreadyActive
    else if (d <? MIN_LOCK_DURATION) || (MAX_LOCK_DURATION <? d)
    then Some InvalidLockDuration
    else if v =? 0 then Some InvalidStakeAmount
    else if max_uint128 <? v then Some StakeAmountTooLarge
    else None.
Proof.
  unfold error_of. rewrite exec_call_stake, stake_unfold.
  cbn [credit _stakes].
  repeat match goal with |- context [if ?b then _ else _] => destruct b end;
    reflexivity.
Qed.

Lemma failed_call_keeps_state a c st :
  error_of this now a c st <> None -> state_after this now a c st = st.
Proof.
  unfold error_of, state_after.
  by destruct (exec_call this now a c st).
Qed.

Lemma state_after_stake a d v st :
  error_of this now a (Stake d v) st = None ->
  state_after this now a (Stake d v) st = staked this a v now d (credit v st).
Proof.
  unfold error_of, state_after. rewrite exec_call_stake, stake_unfold.
  repeat match goal with |- context [if ?b then _ else _] => destruct b end;
    done.
Qed.

End Staking.

(** C4. [stake] checks, in this order, that the caller has no record
    ([StakeAlreadyActive]), that the duration lies within
    [[MIN_LOCK_DURATION, MAX_LOCK_DURATION]] ([InvalidLockDuration]), that
    the deposit is not zero ([InvalidStakeAmount]) and that it does not
    exceed [2^128 - 1] ([StakeAmountTooLarge]).  The first condition that
    matches decides the error; if none matches the call succeeds; a call
    that fails leaves the whole state, the ledger included, as it was. *)
Theorem stake_error_order `{FHE} (this now a d v : Z) (st : State) :
  let already := exists_ (stake_of (_stakes st) a) = true in
  let bad_duration := d < MIN_LOCK_DURATION \/ MAX_LOCK_DURATION < d in
  let outcome := error_of this now a (Stake d v) st in
  (already -> outcome = Some StakeAlreadyActive) /\
  (~ already -> bad_duration -> outcome = Some InvalidLockDuration) /\
  (~ already -> ~ bad_duration -> v = 0 -> outcome = Some InvalidStakeAmount) /\
  (~ already -> ~ bad_duration -> v <> 0 -> 2 ^ 128 - 1 < v ->
     outcome = Some StakeAmountTooLarge) /\
  (~ already -> ~ bad_duration -> v <> 0 -> v <= 2 ^ 128 - 1 ->
     outcome = None) /\
  (outcome <> None ->
     state_after this now a (Stake d v) st = st /\
     _stakes (state_after this now a (Stake d v) st) = _stakes st).
Proof.
  cbv zeta. split_and!.
  6: { intros Hf. by rewrite failed_call_keeps_state. }
  all: intros; rewrite error_of_stake.
  all: destruct (exists_ (stake_of (_stakes st) a)); try congruence.
  all: destruct (Z.ltb_spec d MIN_LOCK_DURATION),
         (Z.ltb_spec MAX_LOCK_DURATION d), (Z.eqb_spec v 0),
         (Z.ltb_spec max_uint128 v);
       cbn; unfold max_uint128 in *; try done; try lia; tauto.
Qed.

Lemma stake_error_order_witness :
  error_of vault 200 alice (Stake 86400 5) staked_once
    = Some StakeAlreadyActive /\
  error_of vault 200 bob (Stake 5 0) staked_once = Some InvalidLockDuration /\
  error_of vault 200 bob (Stake 86400 0) staked_once
    = Some InvalidStakeAmount /\
  error_of vault 200 bob (Stake 86400 (2 ^ 128)) staked_once
    = Some StakeAmountTooLarge /\
  error_of vault 200 bob (Stake 86400 5) staked_once = None /\
  state_after vault 200 alice (Stake 5 0) staked_once = staked_once.
Proof.
  split_and!.
  - apply (stake_error_order vault 200 alice 86400 5 staked_once).
    reflexivity.
  - apply (stake_error_order vault 200 bob 5 0 staked_once).
    + vm_compute. discriminate.
    + left. vm_compute. reflexivity.
  - apply (stake_error_order vault 200 bob 86400 0 staked_once).
    + vm_compute. discriminate.
    + vm_compute. intros [?|?]; discriminate.
    + reflexivity.
  - apply (stake_error_order vault 200 bob 86400 (2 ^ 128) staked_once).
    + vm_compute. discriminate.
    + vm_compute. intros [?|?]; discriminate.
    + discriminate.
    + reflexivity.
  - apply (stake_error_order vault 200 bob 86400 5 staked_once).
    + vm_compute. discriminate.
    + vm_compute. intros [?|?]; discriminate.
    + discriminate.
    + vm_compute. discriminate.
  - apply (stake_error_order vault 200 alice 5 0 staked_once).
    vm_compute. discriminate.
Defined.

(** C7, as the code has it.  [MIN_LOCK_DURATION] is 86400 and
    [MAX_LOCK_DURATION] is 31536000.  When the caller has no record, so
    that the duration check is reached, a duration below 86400 or above
    31536000 fails with [InvalidLockDuration]; every duration from 86400 to
    31536000, both ends included, passes that check, and with a deposit
    between 1 and [2^128 - 1] the call succeeds and stores that duration. *)
Theorem stake_duration_bounds `{FHE} (this now a d v : Z) (st : State) :
  MIN_LOCK_DURATION = 86400 /\ MAX_LOCK_DURATION = 31536000 /\
  (exists_ (stake_of (_stakes st) a) = false ->
   (d < 86400 \/ 31536000 < d ->
      error_of this now a (Stake d v) st = Some InvalidLockDuration) /\
   (86400 <= d <= 31536000 ->
      error_of this now a (Stake d v) st <> Some InvalidLockDuration /\
      (0 < v <= 2 ^ 128 - 1 ->
         error_of this now a (Stake d v) st = None /\
         lockDuration
           (stake_of (_stakes (state_after this now a (Stake d v) st)) a) = d /\
         exists_
           (stake_of (_stakes (state_after this now a (Stake d v) st)) a)
           = true))).
Proof.
  split; [reflexivity|]. split; [reflexivity|]. intros Hex.
  assert (Herr : forall P : option Error -> Prop,
             P (if (d <? 86400) || (31536000 <? d)
                then Some InvalidLockDuration
                else if v =? 0 then Some InvalidStakeAmount
                else if 2 ^ 128 - 1 <? v then Some StakeAmountTooLarge
                else None) ->
             P (error_of this now a (Stake d v) st)).
  { intros P HP. by rewrite error_of_stake, Hex. }
  split.
  - intros Hd. apply Herr.
    destruct (Z.ltb_spec d 86400), (Z.ltb_spec 31536000 d); cbn; try done; lia.
  - intros Hd.
    assert (Hok : ((d <? 86400) || (31536000 <? d)) = false).
    { destruct (Z.ltb_spec d 86400), (Z.ltb_spec 31536000 d); cbn; try done;
        lia. }
    split.
    + apply Herr. rewrite Hok. by repeat case_match.
    + intros Hv.
      assert (Hnone : error_of this now a (Stake d v) st = None).
      { apply Herr. rewrite Hok.
        destruct (Z.eqb_spec v 0), (Z.ltb_spec (2 ^ 128 - 1) v); try done;
          lia. }
      split; [done|]. rewrite state_after_stake by done.
      cbn. by rewrite stake_of_store, decide_True.
Qed.

Lemma stake_duration_bounds_witness :
  error_of vault 200 bob (Stake 86399 5) staked_once
    = Some InvalidLockDuration /\
  error_of vault 200 bob (Stake 31536001 5) staked_once
    = Some InvalidLockDuration /\
  error_of vault 200 bob (Stake 86400 5) staked_once = None /\
  error_of vault 200 bob (Stake 31536000 5) staked_once = None.
Proof.
  assert (Hfree : exists_ (stake_of (_stakes staked_once) bob) = false)
    by reflexivity.
  split_and!.
  - apply (stake_duration_bounds vault 200 bob 86399 5 staked_once);
      [exact Hfree | left; lia].
  - apply (stake_duration_bounds vault 200 bob 31536001 5 staked_once);
      [exact Hfree | right; lia].
  - apply (stake_duration_bounds vault 200 bob 86400 5 staked_once);
      [exact Hfree | lia | lia].
  - apply (stake_duration_bounds vault 200 bob 31536000 5 staked_once);
      [exact Hfree | lia | lia].
Defined.

(** Against C7 as the spec words it.  The duration check is not reached
    when the caller already has a record: Alice, who has staked, calls
    [stake] with duration 0 and gets [StakeAlreadyActive]. *)
Lemma stake_duration_unchecked_when_active :
  ~ (forall (F : FHE) (this now a d v : Z) (st : State),
       d < 86400 \/ 31536000 < d ->
       error_of this now a (Stake d v) st = Some InvalidLockDuration).
Proof.
  intros Hspec.
  specialize (Hspec demo_fhe vault 200 alice 0 5 staked_once).
  assert (Hrun : error_of vault 200 alice (Stake 0 5) staked_once
                 = Some StakeAlreadyActive) by reflexivity.
  rewrite Hrun in Hspec. discriminate Hspec. left. lia.
Qed.

(** ** Requesting a withdrawal *)

Section Requesting.
Context `{FHE}.
Variable this : address.
Variable now : Z.

Lemma well_typed_no_overflow d :
  well_typed d ->
  (max_uint256 <? startTimestamp d + lockDuration d) = false.
Proof.
  unfold well_typed, max_uint64, max_uint256. intros Hd.
  apply Z.ltb_ge.
  assert (2 ^ 64 + 2 ^ 64 <= 2 ^ 256 - 1) by done. lia.
Qed.

Lemma error_of_request a st :
  well_typed (stake_of (_stakes st) a) ->
  error_of this now a RequestWithdrawal st =
    let d := stake_of (_stakes st) a in
    if negb (exists_ d) then Some NoActiveStake
    else if now <? startTimestamp d + lockDuration d
    then Some LockPeriodActive
    else if withdrawalRequested d then Some WithdrawalAlreadyRequested
    else None.
Proof.
  intros Hd. unfold error_of.
  rewrite exec_call_request, requestWithdrawal_unfold. cbv zeta.
  rewrite well_typed_no_overflow by done.
  repeat case_match; congruence.
Qed.

Lemma state_after_request a st :
  error_of this now a RequestWithdrawal st = None ->
  state_after this now a RequestWithdrawal st = requested a st.
Proof.
  unfold error_of, state_after.
  rewrite exec_call_request, requestWithdrawal_unfold. cbv zeta.
  repeat case_match; congruence.
Qed.

End Requesting.

(** C6. Take an account with a record whose [withdrawalRequested] is
    still false.  [requestWithdrawal] at a time strictly before
    [startTimestamp + lockDuration] fails with [LockPeriodActive] and
    changes nothing; at that time or later it succeeds: the record is the
    old one with [withdrawalRequested] set, and the handle is publicly
    decryptable. *)
Theorem requestWithdrawal_lock_boundary `{FHE} (this now a : Z) (st : State) :
  let d := stake_of (_stakes st) a in
  let st' := state_after this now a RequestWithdrawal st in
  exists_ d = true -> withdrawalRequested d = false -> well_typed d ->
  (now < startTimestamp d + lockDuration d ->
     error_of this now a RequestWithdrawal st = Some LockPeriodActive /\
     st' = st) /\
  (startTimestamp d + lockDuration d <= now ->
     error_of this now a RequestWithdrawal st = None /\
     stake_of (_stakes st') a = mark_requested d /\
     withdrawalRequested (stake_of (_stakes st') a) = true /\
     encryptedAmount d ∈ publiclyDecryptable st').
Proof.
  intros d st' Hex Hwr Hty.
  pose proof (error_of_request this now a st Hty) as Herr.
  cbv zeta in Herr. fold d in Herr. rewrite Hex, Hwr in Herr. cbn in Herr.
  split; intros Hnow.
  - apply Z.ltb_lt in Hnow. rewrite Hnow in Herr. split; [done|].
    apply failed_call_keeps_state. by rewrite Herr.
  - apply Z.ltb_ge in Hnow. rewrite Hnow in Herr. split; [done|].
    subst st'. rewrite state_after_request by done.
    unfold requested. cbn. rewrite stake_of_store, decide_True by done.
    split_and!; [done..|]. fold d. set_solver.
Qed.

Lemma requestWithdrawal_lock_boundary_witness :
  error_of vault 86499 alice RequestWithdrawal staked_once
    = Some LockPeriodActive /\
  error_of vault 86500 alice RequestWithdrawal staked_once = None /\
  withdrawalRequested
    (stake_of (_stakes (state_after vault 86500 alice RequestWithdrawal
                                    staked_once)) alice) = true.
Proof.
  assert (Hty : well_typed (stake_of (_stakes staked_once) alice)).
  { vm_compute. split_and!; discriminate. }
  split_and!.
  - apply (requestWithdrawal_lock_boundary vault 86499 alice staked_once);
      [reflexivity | reflexivity | exact Hty | vm_compute; reflexivity].
  - apply (requestWithdrawal_lock_boundary vault 86500 alice staked_once);
      [reflexivity | reflexivity | exact Hty | vm_compute; discriminate].
  - apply (requestWithdrawal_lock_boundary vault 86500 alice staked_once);
      [reflexivity | reflexivity | exact Hty | vm_compute; discriminate].
Defined.

(** ** Reading a summary *)

Lemma getStakeSummary_unfold a st :
  getStakeSummary a st =
    let d := stake_of (_stakes st) a in
    if exists_ d
    then if max_uint256 <? startTimestamp d + lockDuration d
         then Revert (Panic 17)
         else Ok (mkStakeSummary (encryptedAmount d) (startTimestamp d)
                    (startTimestamp d + lockDuration d) (lockDuration d)
                    (withdrawalRequested d) true) st []
    else Ok (mkStakeSummary 0 0 0 (lockDuration d) (withdrawalRequested d)
               false) st [].
Proof.
  unfold getStakeSummary, mbind, M_bind, load_stake, checked_add, FHE_toBytes32.
  cbv zeta. destruct (exists_ (stake_of (_stakes st) a)); [|reflexivity].
  rewrite Z.ltb_antisym. by destruct (_ <=? max_uint256).
Qed.

(** C9. The unlock time is computed on 256-bit integers from two 64-bit
    fields, so it is the exact sum: [getStakeSummary] reports
    [startTimestamp + lockDuration], which differs from the 64-bit
    wrap-around of that sum whenever the sum exceeds [2^64 - 1];
    [requestWithdrawal] answers [LockPeriodActive] exactly when the current
    time is below the exact sum, and never panics on the addition. *)
Theorem unlock_time_exact `{FHE} (this now a : Z) (st : State) :
  let d := stake_of (_stakes st) a in
  let unlock := startTimestamp d + lockDuration d in
  exists_ d = true -> well_typed d ->
  (exists s, getStakeSummary a st = Ok s st [] /\
             summary_unlockTimestamp s = unlock /\
             (max_uint64 < unlock ->
              summary_unlockTimestamp s <> uint64 unlock)) /\
  (error_of this now a RequestWithdrawal st = Some LockPeriodActive
     <-> now < unlock) /\
  error_of this now a RequestWithdrawal st <> Some (Panic 17).
Proof.
  intros d unlock Hex Hty. split_and!.
  - rewrite getStakeSummary_unfold. cbv zeta. fold d. rewrite Hex.
    rewrite well_typed_no_overflow by done.
    eexists. split; [reflexivity|]. cbn. split; [done|].
    intros Hbig Heq. pose proof (uint64_range unlock). fold unlock in Heq. lia.
  - rewrite error_of_request by done. cbv zeta. fold d. rewrite Hex. cbn.
    fold unlock. destruct (Z.ltb_spec now unlock).
    + done.
    + split; [|lia]. by destruct (withdrawalRequested d).
  - rewrite error_of_request by done. cbv zeta.
    by repeat case_match.
Qed.

Lemma unlock_time_exact_witness :
  (exists s, getStakeSummary alice late_stake = Ok s late_stake [] /\
             summary_unlockTimestamp s = 2 ^ 64 - 1 + 31536000 /\
             (max_uint64 < 2 ^ 64 - 1 + 31536000 ->
              summary_unlockTimestamp s <> uint64 (2 ^ 64 - 1 + 31536000))) /\
  (error_of vault (2 ^ 64) alice RequestWithdrawal late_stake
     = Some LockPeriodActive <-> 2 ^ 64 < 2 ^ 64 - 1 + 31536000).
Proof.
  assert (Hty : well_typed (stake_of (_stakes late_stake) alice)).
  { vm_compute. split_and!; discriminate. }
  split.
  - apply (unlock_time_exact vault (2 ^ 64) alice late_stake);
      [reflexivity | exact Hty].
  - apply (unlock_time_exact vault (2 ^ 64) alice late_stake);
      [reflexivity | exact Hty].
Defined.

(** ** Accounts without a record *)

Lemma replay_keeps_absent ws m x :
  Forall (fun w => stores_to x w = false) ws ->
  exists_ (stake_of m x) = false ->
  exists_ (stake_of (replay ws m) x) = false.
Proof.
  revert m. induction ws as [|w ws IH]; intros m Hall Hx; [done|].
  inversion Hall as [|? ? Hw Hws]; subst. cbn. apply IH; [done|].
  destruct w as [a d|a|a]; cbn in *.
  - rewrite stake_of_store. case_decide; [|done].
    subst. by rewrite bool_decide_eq_false in Hw.
  - rewrite stake_of_store. case_decide; [|done]. by subst.
  - rewrite stake_of_delete. by case_decide.
Qed.

Section Absent.
Context `{FHE}.
Variable this : address.

Lemma call_keeps_absent now s c st x :
  restakes x s c = false ->
  exists_ (stake_of (_stakes st) x) = false ->
  exists_ (stake_of (_stakes (state_after this now s c st)) x) = false.
Proof.
  intros Hc Hx. unfold state_after.
  destruct (exec_call this now s c st) as [[] st' ws|e] eqn:Hrun; [|done].
  apply exec_sound in Hrun as [(-> & _ & _) Hst].
  apply replay_keeps_absent; auto.
Qed.

Lemma script_keeps_absent now r st st' ws x :
  exec_script this now r st = Some (st', ws) ->
  script_restakes x r = false ->
  exists_ (stake_of (_stakes st) x) = false ->
  exists_ (stake_of (_stakes st') x) = false.
Proof.
  intros Hrun Hr Hx.
  apply exec_sound in Hrun as [(-> & _ & _) Hst].
  apply replay_keeps_absent; auto.
Qed.

Lemma state_after_inv now s c st :
  ledger_inv (_stakes st) -> ledger_inv (_stakes (state_after this now s c st)).
Proof.
  intros Hinv. unfold state_after.
  destruct (exec_call this now s c st) as [[] st' ws|e] eqn:Hrun; [|done].
  apply exec_sound in Hrun as [(-> & Hl & _) _].
  by apply legal_run_inv.
Qed.

Lemma reachable_inv st : reachable this st -> ledger_inv (_stakes st).
Proof.
  induction 1 as [st Hempty|st tx _ IH].
  - rewrite Hempty. intros a d. by rewrite lookup_empty.
  - by apply state_after_inv.
Qed.

(** In a reachable state every slot is within its declared widths. *)
Lemma reachable_typed st a :
  reachable this st -> well_typed (stake_of (_stakes st) a).
Proof. intros Hst. by apply ledger_inv_typed, reachable_inv. Qed.

Lemma reachable_run_txs txs st :
  reachable this st -> reachable this (run_txs this txs st).
Proof.
  revert st. induction txs as [|tx txs IH]; intros st Hst; [done|].
  cbn. apply IH. by constructor.
Qed.

Lemma run_txs_keeps_absent txs st x :
  Forall (fun tx => restakes x (tx_sender tx) (tx_call tx) = false) txs ->
  exists_ (stake_of (_stakes st) x) = false ->
  exists_ (stake_of (_stakes (run_txs this txs st)) x) = false.
Proof.
  revert st. induction txs as [|tx txs IH]; intros st Hall Hx; [done|].
  inversion Hall; subst. cbn. apply IH; [done|].
  by apply call_keeps_absent.
Qed.

(** What a successful [finalizeWithdrawal] did. *)
Lemma finalize_success now a ct pf r st st' ws :
  exec_call this now a (FinalizeWithdrawal ct pf r) st = Ok tt st' ws ->
  exists amount st2 ws2,
    decode_uint128 ct = Some amount /\
    exec_script this now r (at_transfer a amount st) = Some (st2, ws2) /\
    st' = log_event (WithdrawalFinalized a amount
                       (encryptedAmount (stake_of (_stakes st) a))) st2 /\
    ws = DeleteStake a :: ws2.
Proof.
  rewrite exec_call_finalize, finalizeWithdrawal_unfold. cbv zeta.
  repeat case_match; try done. intros [= <- <-]. by eauto 10.
Qed.

Lemma summary_of_absent a st :
  ledger_inv (_stakes st) ->
  exists_ (stake_of (_stakes st) a) = false ->
  getStakeSummary a st = Ok zero_summary st [].
Proof.
  intros Hinv Hx. rewrite getStakeSummary_unfold. cbv zeta.
  by rewrite (ledger_inv_zero _ _ Hinv Hx).
Qed.

End Absent.

(** C10. In every state the contract can reach, an account without a
    record gets the all-zero summary.  That is the case of an account
    that never staked since deployment, and of an account right after its
    successful [finalizeWithdrawal] (when the payout callback did not
    stake for that account again). *)
Theorem absent_summary_zero `{FHE} (this a : Z) :
  (forall st,
      reachable this st ->
      exists_ (stake_of (_stakes st) a) = false ->
      getStakeSummary a st = Ok zero_summary st []) /\
  (forall st0 txs,
      _stakes st0 = ∅ ->
      Forall (fun tx => restakes a (tx_sender tx) (tx_call tx) = false) txs ->
      getStakeSummary a (run_txs this txs st0)
        = Ok zero_summary (run_txs this txs st0) []) /\
  (forall st now ct pf r,
      reachable this st ->
      error_of this now a (FinalizeWithdrawal ct pf r) st = None ->
      script_restakes a r = false ->
      getStakeSummary a (state_after this now a (FinalizeWithdrawal ct pf r) st)
        = Ok zero_summary
             (state_after this now a (FinalizeWithdrawal ct pf r) st) []).
Proof.
  split_and!.
  - intros st Hreach Hx. apply summary_of_absent; [|done].
    by eapply reachable_inv.
  - intros st0 txs Hempty Hall. apply summary_of_absent.
    + eapply reachable_inv, reachable_run_txs. by constructor.
    + apply run_txs_keeps_absent; [done|].
      unfold stake_of. by rewrite Hempty, lookup_empty.
  - intros st now ct pf r Hreach Hok Hr.
    apply summary_of_absent.
    + eapply reachable_inv. by apply (reachable_tx this st (mkTx now a _)).
    + unfold error_of, state_after in *.
      destruct (exec_call this now a _ st) as [[] st' ws|e] eqn:Hrun; [|done].
      apply finalize_success in Hrun
        as (amount & st2 & ws2 & _ & Hscript & -> & _).
      cbn. eapply script_keeps_absent; [exact Hscript|done|].
      cbn. by rewrite stake_of_delete, decide_True.
Qed.

Lemma absent_summary_zero_witness :
  getStakeSummary bob staked_once = Ok zero_summary staked_once [] /\
  getStakeSummary bob pending = Ok zero_summary pending [] /\
  getStakeSummary alice
    (state_after vault 86500 alice (FinalizeWithdrawal five good_proof Accept)
                 pending)
  = Ok zero_summary
       (state_after vault 86500 alice
                    (FinalizeWithdrawal five good_proof Accept) pending) [].
Proof.
  assert (Hreach : reachable vault pending).
  { apply (reachable_run_txs vault [_; _] deployed). by constructor. }
  split_and!.
  - apply (proj1 (absent_summary_zero vault bob) staked_once).
    + apply (reachable_run_txs vault [_] deployed). by constructor.
    + reflexivity.
  - apply (proj1 (proj2 (absent_summary_zero vault bob)) deployed
             [mkTx 100 alice (Stake 86400 5);
              mkTx 86500 alice RequestWithdrawal]).
    + reflexivity.
    + repeat constructor.
  - apply (proj2 (proj2 (absent_summary_zero vault alice)) pending);
      [exact Hreach|reflexivity..].
Defined.

(** ** Finalizing a withdrawal *)

Section Finalizing.
Context `{FHE}.
Variable this : address.
Variable now : Z.

(** The transfer fails in two ways: the contract cannot pay, or the
    recipient's code fails. *)
Lemma call_value_fails rc amount st :
  call_value rc amount st = Ok false st [] <->
  balance st < amount \/ rc (debit amount st) = None.
Proof.
  unfold call_value. destruct (Z.ltb_spec (balance st) amount).
  - split; [by left|done].
  - destruct (rc (debit amount st)) as [[st' ws]|].
    + split; [done|]. intros [?|?]; [lia|done].
    + split; [by right|done].
Qed.

(** The outcome of [finalizeWithdrawal] once its two guards, the signature
    check and the decoding have passed: it is decided by the transfer. *)
Lemma finalize_after_checks a ct pf r st amount :
  let d := stake_of (_stakes st) a in
  exists_ d = true -> withdrawalRequested d = true ->
  fhe_checkSignatures [encryptedAmount d] ct pf = true ->
  decode_uint128 ct = Some amount ->
  exec_call this now a (FinalizeWithdrawal ct pf r) st =
    match call_value (exec_script this now r) amount
                     (update_stakes (DeleteStake a) st) with
    | Ok true st2 ws2 =>
        Ok tt (log_event (WithdrawalFinalized a amount (encryptedAmount d)) st2)
           (DeleteStake a :: ws2)
    | _ => Revert transfer_failed
    end.
Proof.
  intros d Hex Hwr Hsig Hdec.
  rewrite exec_call_finalize, finalizeWithdrawal_unfold. cbv zeta. fold d.
  rewrite Hex, Hwr, Hsig, Hdec. cbn [negb].
  unfold call_value, at_transfer. cbn [balance update_stakes].
  destruct (balance st <? amount); [done|].
  by destruct (exec_script this now r _) as [[st2 ws2]|].
Qed.

Lemma finalize_bad_signature a ct pf r st :
  let d := stake_of (_stakes st) a in
  exists_ d = true -> withdrawalRequested d = true ->
  fhe_checkSignatures [encryptedAmount d] ct pf = false ->
  exec_call this now a (FinalizeWithdrawal ct pf r) st
    = Revert ProofVerificationFailed.
Proof.
  intros d Hex Hwr Hsig.
  rewrite exec_call_finalize, finalizeWithdrawal_unfold. cbv zeta. fold d.
  by rewrite Hex, Hwr, Hsig.
Qed.

Lemma finalize_without_record a ct pf r st :
  exists_ (stake_of (_stakes st) a) = false ->
  exec_call this now a (FinalizeWithdrawal ct pf r) st = Revert NoActiveStake.
Proof.
  intros Hex.
  rewrite exec_call_finalize, finalizeWithdrawal_unfold. cbv zeta.
  by rewrite Hex.
Qed.

End Finalizing.

(** C2. When the guards of [finalizeWithdrawal] have passed, the record
    has been deleted and the transfer then fails ([sent] is false), the
    call reverts with "ETH transfer failed" and the caller sees the state
    it had before the call: the account's record is there with the same
    fields, and the contract's balance is what it was. *)
Theorem finalize_transfer_failure_rolls_back `{FHE}
    (this now a : Z) (ct pf : bytes) (r : Script) (st : State) (amount : Z) :
  let d := stake_of (_stakes st) a in
  let deleted := update_stakes (DeleteStake a) st in
  let st' := state_after this now a (FinalizeWithdrawal ct pf r) st in
  exists_ d = true -> withdrawalRequested d = true ->
  fhe_checkSignatures [encryptedAmount d] ct pf = true ->
  decode_uint128 ct = Some amount ->
  call_value (exec_script this now r) amount deleted = Ok false deleted [] ->
  exists_ (stake_of (_stakes deleted) a) = false /\
  error_of this now a (FinalizeWithdrawal ct pf r) st = Some transfer_failed /\
  st' = st /\
  stake_of (_stakes st') a = d /\
  exists_ (stake_of (_stakes st') a) = true /\
  balance st' = balance st.
Proof.
  intros d deleted st' Hex Hwr Hsig Hdec Hsent.
  assert (Hrun : exec_call this now a (FinalizeWithdrawal ct pf r) st
                 = Revert transfer_failed).
  { rewrite (finalize_after_checks this now a ct pf r st amount) by done.
    fold deleted. by rewrite Hsent. }
  assert (Hst : st' = st).
  { subst st'. unfold state_after. by rewrite Hrun. }
  split_and!.
  - subst deleted. cbn. by rewrite stake_of_delete, decide_True.
  - unfold error_of. by rewrite Hrun.
  - done.
  - by rewrite Hst.
  - by rewrite Hst.
  - by rewrite Hst.
Qed.

Lemma finalize_transfer_failure_rolls_back_witness :
  error_of vault 86500 alice (FinalizeWithdrawal five good_proof Reject) pending
    = Some transfer_failed /\
  state_after vault 86500 alice (FinalizeWithdrawal five good_proof Reject)
              pending = pending /\
  exists_ (stake_of (_stakes (state_after vault 86500 alice
             (FinalizeWithdrawal five good_proof Reject) pending)) alice)
    = true.
Proof.
  split_and!.
  - apply (finalize_transfer_failure_rolls_back vault 86500 alice five
             good_proof Reject pending 5); reflexivity.
  - apply (finalize_transfer_failure_rolls_back vault 86500 alice five
             good_proof Reject pending 5); reflexivity.
  - apply (finalize_transfer_failure_rolls_back vault 86500 alice five
             good_proof Reject pending 5); reflexivity.
Defined.

(** C3, as the code has it.  Take an account whose record exists and has
    [withdrawalRequested] set.  If [FHE.checkSignatures] rejects the proof
    or the cleartexts for the record's single handle,
    [finalizeWithdrawal] fails with [ProofVerificationFailed], and the
    state is what it was: the record is intact.  A later
    [finalizeWithdrawal] whose proof verifies, whose cleartexts decode and
    whose transfer goes through succeeds. *)
Theorem finalize_bad_proof_leaves_record `{FHE}
    (this now a : Z) (ct pf : bytes) (r : Script) (st : State) :
  let d := stake_of (_stakes st) a in
  let st' := state_after this now a (FinalizeWithdrawal ct pf r) st in
  exists_ d = true -> withdrawalRequested d = true ->
  fhe_checkSignatures [encryptedAmount d] ct pf = false ->
  error_of this now a (FinalizeWithdrawal ct pf r) st
    = Some ProofVerificationFailed /\
  st' = st /\
  stake_of (_stakes st') a = d /\
  (forall now' ct' pf' r' amount st2 ws2,
      fhe_checkSignatures [encryptedAmount d] ct' pf' = true ->
      decode_uint128 ct' = Some amount ->
      call_value (exec_script this now' r') amount
                 (update_stakes (DeleteStake a) st') = Ok true st2 ws2 ->
      error_of this now' a (FinalizeWithdrawal ct' pf' r') st' = None).
Proof.
  intros d st' Hex Hwr Hsig.
  assert (Hrun : exec_call this now a (FinalizeWithdrawal ct pf r) st
                 = Revert ProofVerificationFailed)
    by by apply finalize_bad_signature.
  assert (Hst : st' = st).
  { subst st'. unfold state_after. by rewrite Hrun. }
  split_and!.
  - unfold error_of. by rewrite Hrun.
  - done.
  - by rewrite Hst.
  - rewrite Hst. intros now' ct' pf' r' amount st2 ws2 Hsig' Hdec' Hsent.
    unfold error_of.
    rewrite (finalize_after_checks this now' a ct' pf' r' st amount) by done.
    by rewrite Hsent.
Qed.

Lemma finalize_bad_proof_leaves_record_witness :
  error_of vault 86500 alice (FinalizeWithdrawal five bad_proof Accept) pending
    = Some ProofVerificationFailed /\
  state_after vault 86500 alice (FinalizeWithdrawal five bad_proof Accept)
              pending = pending /\
  error_of vault 86600 alice (FinalizeWithdrawal five good_proof Accept)
    (state_after vault 86500 alice (FinalizeWithdrawal five bad_proof Accept)
                 pending) = None.
Proof.
  split_and!.
  - apply (finalize_bad_proof_leaves_record vault 86500 alice five bad_proof
             Accept pending); reflexivity.
  - apply (finalize_bad_proof_leaves_record vault 86500 alice five bad_proof
             Accept pending); reflexivity.
  - eapply (finalize_bad_proof_leaves_record vault 86500 alice five bad_proof
              Accept pending); reflexivity.
Defined.

(** Against C3 as the spec words it, two runs.  Alice's record
    exists but she has not asked for her withdrawal: a bad proof is not
    even looked at, the call fails with [WithdrawalNotRequested].  And
    once she has asked, a retry with a good proof after a bad one still
    fails when the recipient refuses the payment. *)
Lemma finalize_bad_proof_other_failures :
  ~ (forall (F : FHE) (this now a : Z) (ct pf : bytes) (r : Script)
            (st : State),
       exists_ (stake_of (_stakes st) a) = true ->
       fhe_checkSignatures [encryptedAmount (stake_of (_stakes st) a)] ct pf
         = false ->
       error_of this now a (FinalizeWithdrawal ct pf r) st
         = Some ProofVerificationFailed) /\
  error_of vault 86500 alice (FinalizeWithdrawal five bad_proof Accept)
           staked_once = Some WithdrawalNotRequested /\
  error_of vault 86600 alice (FinalizeWithdrawal five good_proof Reject)
    (state_after vault 86500 alice (FinalizeWithdrawal five bad_proof Accept)
                 pending) = Some transfer_failed.
Proof.
  split_and!; try reflexivity.
  intros Hspec.
  specialize (Hspec demo_fhe vault 86500 alice five bad_proof Accept
                     staked_once eq_refl eq_refl).
  discriminate Hspec.
Qed.

(** ** Reentrancy *)

Section Reentrancy.
Context `{FHE}.
Variable this : address.
Variable now : Z.

(** Recipient code that never stakes for [a] leaves [a] without a record
    if it had none. *)
Lemma run_prefix_keeps_absent p st a :
  Forall (fun sc => restakes a sc.1 sc.2 = false) p ->
  exists_ (stake_of (_stakes st) a) = false ->
  exists_ (stake_of (_stakes (run_prefix this now p st)) a) = false.
Proof.
  revert st. induction p as [|[s c] p IH]; intros st Hall Hx; [done|].
  inversion Hall; subst. cbn. apply IH; [done|].
  by apply call_keeps_absent.
Qed.

(** A reentrant [finalizeWithdrawal] by an account without a record is
    without effect on the run of the recipient's code. *)
Lemma reentrant_finalize_skipped p a ct pf r rest st :
  Forall (fun sc => restakes a sc.1 sc.2 = false) p ->
  exists_ (stake_of (_stakes st) a) = false ->
  exec_script this now
    (prefixed p (Then a (FinalizeWithdrawal ct pf r) rest)) st =
  exec_script this now (prefixed p rest) st.
Proof.
  revert st. induction p as [|[s c] p IH]; intros st Hall Hx.
  - cbn [prefixed]. rewrite exec_script_then.
    by rewrite finalize_without_record.
  - inversion Hall as [|? ? Hc Hp]; subst. cbn [prefixed].
    rewrite !exec_script_then.
    pose proof (call_keeps_absent this now s c st a Hc Hx) as Hx1.
    unfold state_after in Hx1.
    destruct (exec_call this now s c st) as [[] st1 ws1|e].
    + by rewrite IH.
    + by rewrite IH.
Qed.

End Reentrancy.

(** C1, as the code has it.  Once the guards of [finalizeWithdrawal] have
    passed, the recipient's code starts in a state where the caller's
    record is already deleted.  From there on, whatever calls that code
    places, as long as none of them is a [stake] by the same account, the
    account has no record: a reentrant [finalizeWithdrawal] by it reverts
    with [NoActiveStake], and the outer call runs exactly as if the
    reentrant call had not been made. *)
Theorem reentrant_finalize_blocked `{FHE}
    (this now a : Z) (ct pf : bytes) (st : State) (amount : Z)
    (p : list (Z * Call)) :
  let d := stake_of (_stakes st) a in
  let entered := at_transfer a amount st in
  let reentered := run_prefix this now p entered in
  exists_ d = true -> withdrawalRequested d = true ->
  fhe_checkSignatures [encryptedAmount d] ct pf = true ->
  decode_uint128 ct = Some amount ->
  Forall (fun sc => restakes a sc.1 sc.2 = false) p ->
  exists_ (stake_of (_stakes entered) a) = false /\
  exists_ (stake_of (_stakes reentered) a) = false /\
  forall ct' pf' r',
    exec_call this now a (FinalizeWithdrawal ct' pf' r') reentered
      = Revert NoActiveStake /\
    forall rest,
      exec_call this now a
        (FinalizeWithdrawal ct pf
           (prefixed p (Then a (FinalizeWithdrawal ct' pf' r') rest))) st =
      exec_call this now a (FinalizeWithdrawal ct pf (prefixed p rest)) st.
Proof.
  intros d entered reentered Hex Hwr Hsig Hdec Hp.
  assert (Hgone : exists_ (stake_of (_stakes entered) a) = false).
  { subst entered. cbn. by rewrite stake_of_delete, decide_True. }
  assert (Hstill : exists_ (stake_of (_stakes reentered) a) = false)
    by by apply run_prefix_keeps_absent.
  split_and!; [done..|].
  intros ct' pf' r'. split; [by apply finalize_without_record|].
  intros rest.
  rewrite !exec_call_finalize, !finalizeWithdrawal_unfold. cbv zeta.
  fold d. rewrite Hex, Hwr, Hsig, Hdec. cbn [negb].
  destruct (balance st <? amount); [done|].
  fold entered. by rewrite reentrant_finalize_skipped.
Qed.

Lemma reentrant_finalize_blocked_witness :
  exec_call vault 86500 alice (FinalizeWithdrawal five good_proof Accept)
    (run_prefix vault 86500 [(bob, Stake 86400 7)]
                (at_transfer alice 5 pending))
  = Revert NoActiveStake.
Proof.
  apply (reentrant_finalize_blocked vault 86500 alice five good_proof pending 5
           [(bob, Stake 86400 7)]); try reflexivity.
  repeat constructor.
Defined.

(** Against C1 as the spec words it.  While Alice is being paid, her
    code stakes again and then calls [finalizeWithdrawal]: the call sees
    her new record and fails with [WithdrawalNotRequested]. *)
Lemma reentrant_finalize_after_restake :
  ~ (forall (F : FHE) (this now a : Z) (ct pf : bytes) (st : State)
            (amount : Z) (p : list (Z * Call)) (ct' pf' : bytes)
            (r' : Script),
       exists_ (stake_of (_stakes st) a) = true ->
       withdrawalRequested (stake_of (_stakes st) a) = true ->
       fhe_checkSignatures [encryptedAmount (stake_of (_stakes st) a)] ct pf
         = true ->
       decode_uint128 ct = Some amount ->
       amount <= balance st ->
       exists_ (stake_of (_stakes (run_prefix this now p
                                     (at_transfer a amount st))) a) = false /\
       exec_call this now a (FinalizeWithdrawal ct' pf' r')
                 (run_prefix this now p (at_transfer a amount st))
         = Revert NoActiveStake) /\
  exec_call vault 86500 alice (FinalizeWithdrawal five good_proof Accept)
    (run_prefix vault 86500 [(alice, Stake 86400 1)]
                (at_transfer alice 5 pending))
  = Revert WithdrawalNotRequested.
Proof.
  split; [|reflexivity].
  intros Hspec.
  destruct (Hspec demo_fhe vault 86500 alice five good_proof pending 5
                   [(alice, Stake 86400 1)] five good_proof Accept)
    as [Hrec Hrun]; try reflexivity.
  discriminate Hrec.
Qed.

(** ** Frame and history *)

Section Frame.
Context `{FHE}.
Variable this : address.

(** A call leaves alone the slot of every account that makes no call in
    its tree. *)
Lemma bystander_untouched now a c st b :
  b ∉ a :: nested_senders c ->
  stake_of (_stakes (state_after this now a c st)) b = stake_of (_stakes st) b.
Proof.
  intros Hb. unfold state_after.
  destruct (exec_call this now a c st) as [[] st' ws|e] eqn:Hrun; [|done].
  apply exec_sound in Hrun as [(-> & _ & Ht) _].
  apply replay_other. eapply Forall_impl; [exact Ht|].
  intros w Hw Heq. apply Hb. by rewrite <- Heq.
Qed.

Lemma writes_of_targets now a c st :
  Forall (fun w => write_target w ∈ a :: nested_senders c)
         (writes_of this now a c st).
Proof.
  unfold writes_of.
  destruct (exec_call this now a c st) as [[] st' ws|e] eqn:Hrun;
    [|constructor].
  by apply exec_sound in Hrun as [(_ & _ & Ht) _].
Qed.

Lemma tx_sound st tx :
  _stakes (run_tx this st tx) = replay (tx_writes this st tx) (_stakes st) /\
  legal_run (tx_writes this st tx) (_stakes st).
Proof.
  unfold run_tx, tx_writes, state_after, writes_of.
  destruct (exec_call this _ _ _ st) as [[] st' ws|e] eqn:Hrun; [|done].
  by apply exec_sound in Hrun as [(-> & Hl & _) _].
Qed.

Lemma history_sound txs st :
  _stakes (run_txs this txs st) = replay (history this txs st) (_stakes st) /\
  legal_run (history this txs st) (_stakes st).
Proof.
  revert st. induction txs as [|tx txs IH]; intros st; [done|].
  cbn [run_txs history].
  destruct (tx_sound st tx) as [Hr Hl].
  destruct (IH (run_tx this st tx)) as [IHr IHl].
  split.
  - by rewrite replay_app, <- Hr.
  - apply legal_run_app. by rewrite <- Hr.
Qed.

End Frame.

(** As long as no write deletes the slot of [x], a record of [x] stays,
    with its duration and start, and a set flag stays set. *)
Lemma legal_run_keeps_record x ws m :
  legal_run ws m ->
  Forall (fun w => w <> DeleteStake x) ws ->
  exists_ (stake_of m x) = true ->
  exists_ (stake_of (replay ws m) x) = true /\
  lockDuration (stake_of (replay ws m) x) = lockDuration (stake_of m x) /\
  startTimestamp (stake_of (replay ws m) x) = startTimestamp (stake_of m x) /\
  (withdrawalRequested (stake_of m x) = true ->
   withdrawalRequested (stake_of (replay ws m) x) = true).
Proof.
  revert m. induction ws as [|w ws IH]; intros m Hl Hall Hx; [done|].
  destruct Hl as [Hw Hl]. inversion Hall as [|? ? Hnd Hrest]; subst.
  assert (Hstep : exists_ (stake_of (apply_write w m) x) = true /\
                  lockDuration (stake_of (apply_write w m) x)
                    = lockDuration (stake_of m x) /\
                  startTimestamp (stake_of (apply_write w m) x)
                    = startTimestamp (stake_of m x) /\
                  (withdrawalRequested (stake_of m x) = true ->
                   withdrawalRequested (stake_of (apply_write w m) x) = true)).
  { destruct w as [a d|a|a]; cbn in *.
    - rewrite stake_of_store. case_decide; [|done].
      subst. destruct Hw as [Hw _]. congruence.
    - rewrite stake_of_store. case_decide; [|done]. by subst.
    - rewrite stake_of_delete. case_decide; [|done]. by subst. }
  destruct Hstep as (Hx' & Hd & Hs & Hr).
  destruct (IH _ Hl Hrest Hx') as (IHx & IHd & IHs & IHr).
  cbn [replay]. split_and!; [done|congruence|congruence|auto].
Qed.

Lemma legal_run_at before w after m :
  legal_run (before ++ w :: after) m -> legal w (replay before m).
Proof. intros Hl. by apply legal_run_app in Hl as [_ [Hw _]]. Qed.

(** C8, as the code has it.  An operation by [a] leaves the record of
    every other account [b] as it was, whether it succeeds or fails, as
    long as [b] itself places no call from inside the operation.  [stake]
    and [requestWithdrawal] make no external call that could come back,
    so for them nothing more is asked.  [finalizeWithdrawal] hands control
    to the recipient: its own steps before and after that leave the
    record of [b] alone, and so does the whole call for every recipient
    code in which [b] places no call.  In all cases the writes a call
    commits go to the slots of the accounts that place calls in it. *)
Theorem other_records_untouched `{FHE} (this now a b : Z) (st : State) :
  b <> a ->
  (forall d v,
      stake_of (_stakes (state_after this now a (Stake d v) st)) b
        = stake_of (_stakes st) b) /\
  stake_of (_stakes (state_after this now a RequestWithdrawal st)) b
    = stake_of (_stakes st) b /\
  (forall ct pf r,
      state_after this now a (FinalizeWithdrawal ct pf r) st = st \/
      exists amount st2 ws2,
        exec_script this now r (at_transfer a amount st) = Some (st2, ws2) /\
        stake_of (_stakes (at_transfer a amount st)) b
          = stake_of (_stakes st) b /\
        stake_of (_stakes (state_after this now a
                             (FinalizeWithdrawal ct pf r) st)) b
          = stake_of (_stakes st2) b) /\
  (forall ct pf r,
      b ∉ script_senders r ->
      stake_of (_stakes (state_after this now a
                           (FinalizeWithdrawal ct pf r) st)) b
        = stake_of (_stakes st) b) /\
  (forall c,
      Forall (fun w => write_target w ∈ a :: nested_senders c)
             (writes_of this now a c st)).
Proof.
  intros Hne. split_and!.
  - intros d v. apply bystander_untouched. cbn.
    apply not_elem_of_cons. split; [done|apply not_elem_of_nil].
  - apply bystander_untouched. cbn.
    apply not_elem_of_cons. split; [done|apply not_elem_of_nil].
  - intros ct pf r. unfold state_after.
    destruct (exec_call this now a _ st) as [[] st' ws|e] eqn:Hrun;
      [right|by left].
    apply finalize_success in Hrun as (amount & st2 & ws2 & _ & Hr & -> & _).
    exists amount, st2, ws2. split_and!; [done| |done].
    cbn. rewrite stake_of_delete. by case_decide.
  - intros ct pf r Hb. apply bystander_untouched. cbn.
    by apply not_elem_of_cons.
  - intros c. apply writes_of_targets.
Qed.

Lemma other_records_untouched_witness :
  stake_of (_stakes (state_after vault 200 bob (Stake 86400 7) staked_once))
           alice
    = stake_of (_stakes staked_once) alice /\
  stake_of (_stakes (state_after vault 86500 bob RequestWithdrawal staked_once))
           alice
    = stake_of (_stakes staked_once) alice /\
  stake_of (_stakes (state_after vault 86500 alice
                       (FinalizeWithdrawal five good_proof
                          (Then alice (Stake 86400 1) Accept)) pending)) bob
    = stake_of (_stakes pending) bob.
Proof.
  split_and!.
  - apply (other_records_untouched vault 200 bob alice staked_once).
    discriminate.
  - apply (other_records_untouched vault 86500 bob alice staked_once).
    discriminate.
  - apply (other_records_untouched vault 86500 alice bob pending).
    + discriminate.
    + cbn. intros Hin. apply list_elem_of_singleton in Hin. discriminate Hin.
Defined.

(** Against C8 as the spec words it.  While Alice is being paid, her
    code has Bob stake: when her [finalizeWithdrawal] returns, Bob has a
    record he did not have before. *)
Lemma other_record_changed_in_callback :
  ~ (forall (F : FHE) (this now a b : Z) (c : Call) (st : State),
       b <> a ->
       stake_of (_stakes (state_after this now a c st)) b
         = stake_of (_stakes st) b) /\
  exists_ (stake_of (_stakes pending) bob) = false /\
  exists_ (stake_of (_stakes (state_after vault 86500 alice
             (FinalizeWithdrawal five good_proof
                (Then bob (Stake 86400 7) Accept)) pending)) bob) = true.
Proof.
  split_and!; try reflexivity.
  intros Hspec.
  specialize (Hspec demo_fhe vault 86500 alice bob
                (FinalizeWithdrawal five good_proof
                   (Then bob (Stake 86400 7) Accept)) pending).
  assert (Hne : bob <> alice) by discriminate.
  apply Hspec in Hne. apply (f_equal exists_) in Hne. discriminate Hne.
Qed.

(** C5. Take any sequence of transactions, with whatever nested calls
    their payout callbacks make, and look at the writes to [_stakes] it
    commits, one after the other.  Across each write, an account that has
    a record before and after keeps its [lockDuration] and its
    [startTimestamp], and a set [withdrawalRequested] stays set.  A record
    is only ever stored into a slot that holds none, and the writes are
    all there is: replaying them gives the final ledger.  Hence, as long
    as the record of an account is not deleted, it is there after the
    whole sequence with the duration and start it had, and with
    [withdrawalRequested] set if it was. *)
Theorem record_fields_immutable `{FHE} (this : Z) (txs : list Tx) (st : State) :
  let ws := history this txs st in
  _stakes (run_txs this txs st) = replay ws (_stakes st) /\
  (forall before w after,
    ws = before ++ w :: after ->
    (forall x,
        let old := stake_of (replay before (_stakes st)) x in
        let new := stake_of (replay (before ++ [w]) (_stakes st)) x in
        exists_ old = true -> exists_ new = true ->
        lockDuration new = lockDuration old /\
        startTimestamp new = startTimestamp old /\
        (withdrawalRequested old = true -> withdrawalRequested new = true)) /\
    (forall x d,
        w = StoreStake x d ->
        exists_ (stake_of (replay before (_stakes st)) x) = false)) /\
  (forall x,
      let old := stake_of (_stakes st) x in
      let new := stake_of (_stakes (run_txs this txs st)) x in
      exists_ old = true ->
      Forall (fun w => w <> DeleteStake x) ws ->
      exists_ new = true /\
      lockDuration new = lockDuration old /\
      startTimestamp new = startTimestamp old /\
      (withdrawalRequested old = true -> withdrawalRequested new = true)).
Proof.
  intros ws. destruct (history_sound this txs st) as [Hr Hl]. fold ws in Hr, Hl.
  split_and!; [done| |].
  - intros before w after Hws. rewrite Hws in Hl.
    apply legal_run_at in Hl. split.
    + intros x old new Hold Hnew. subst old new.
      rewrite replay_app in *. cbn [replay] in *.
      by apply (legal_stable w _ Hl x).
    + intros x d ->. by destruct Hl.
  - intros x old new Hold Hnodel. subst old new. rewrite Hr.
    by apply legal_run_keeps_record.
Qed.

Lemma record_fields_immutable_witness :
  (let m1 := replay [StoreStake alice (fresh_stake 5 100 86400)] ∅ in
   let m2 := replay [StoreStake alice (fresh_stake 5 100 86400);
                     MarkRequested alice] ∅ in
   lockDuration (stake_of m2 alice) = lockDuration (stake_of m1 alice) /\
   startTimestamp (stake_of m2 alice) = startTimestamp (stake_of m1 alice) /\
   (withdrawalRequested (stake_of m1 alice) = true ->
    withdrawalRequested (stake_of m2 alice) = true)) /\
  (let old := stake_of (_stakes staked_once) alice in
   let new := stake_of (_stakes pending) alice in
   exists_ new = true /\
   lockDuration new = lockDuration old /\
   startTimestamp new = startTimestamp old /\
   (withdrawalRequested old = true -> withdrawalRequested new = true)).
Proof.
  split.
  - apply (proj1 (proj1 (proj2 (record_fields_immutable vault
             [mkTx 100 alice (Stake 86400 5);
              mkTx 86500 alice RequestWithdrawal] deployed))
             [StoreStake alice (fresh_stake 5 100 86400)]
             (MarkRequested alice) [] eq_refl) alice); reflexivity.
  - apply (proj2 (proj2 (record_fields_immutable vault
             [mkTx 86500 alice RequestWithdrawal] staked_once)) alice).
    + reflexivity.
    + repeat constructor; discriminate.
Defined.

(** ** The scenarios of the test suite, run on the model *)

(** "stores encrypted stakes and exposes metadata summaries" *)
Example scenario_stake_summary :
  let st := state_after vault 1000 alice (Stake (3 * 86400) (3 * ether / 2))
                        deployed in
  getStakeSummary alice st
    = Ok (mkStakeSummary (demo_handle (3 * ether / 2)) 1000 (1000 + 259200)
                         259200 false true) st [] /\
  balance st = 3 * ether / 2.
Proof. split; reflexivity. Qed.

(** "prevents overlapping stakes and rejects early withdrawals" *)
Example scenario_overlap_and_early :
  let st := state_after vault 1000 alice (Stake (5 * 86400) (ether / 2))
                        deployed in
  error_of vault 1000 alice (Stake (5 * 86400) (ether / 2)) st
    = Some StakeAlreadyActive /\
  error_of vault 1000 alice RequestWithdrawal st = Some LockPeriodActive.
Proof. split; reflexivity. Qed.

(** "allows withdrawing once the public decryption proof is provided" *)
Example scenario_withdraw :
  let duration := 2 * 86400 in
  let st1 := state_after vault 1000 alice (Stake duration (2 * ether))
                         deployed in
  let st2 := state_after vault (1000 + duration + 1) alice RequestWithdrawal
                         st1 in
  let payout := FinalizeWithdrawal (encode_cleartext (2 * ether)) good_proof
                                   Accept in
  let st3 := state_after vault (1000 + duration + 1) alice payout st2 in
  error_of vault (1000 + duration + 1) alice RequestWithdrawal st1 = None /\
  error_of vault (1000 + duration + 1) alice payout st2 = None /\
  balance st2 = 2 * ether /\ balance st3 = 0 /\
  hasStake alice st3 = Ok false st3 [] /\
  getEncryptedAmount alice st3 = Ok 0 st3 [].
Proof. vm_compute. by repeat split. Qed.

(** * Further properties *)

(** ** Executions as chains of steps *)

Section StepChains.
Context `{FHE}.
Variable this : address.
Variable now : Z.
Variable known : Z -> Prop.

Lemma exec_steps :
  (forall c a st st' ws,
      Forall known (deposits c) ->
      exec_call this now a c st = Ok tt st' ws ->
      rtc (step this now known) st st') /\
  (forall r st st' ws,
      Forall known (script_deposits r) ->
      exec_script this now r st = Some (st', ws) ->
      rtc (step this now known) st st').
Proof.
  apply Call_Script_mutind.
  - intros d v a st st' ws Hv. rewrite exec_call_stake, stake_unfold.
    cbn [credit _stakes].
    destruct (exists_ (stake_of (_stakes st) a)) eqn:Hex; [done|].
    destruct (_ || _) eqn:Hdur; [done|].
    destruct (Z.eqb_spec v 0); [done|].
    destruct (Z.ltb_spec max_uint128 v); [done|].
    intros [= <- _]. apply rtc_once.
    apply orb_false_iff in Hdur as [Hlo Hhi]. apply Z.ltb_ge in Hlo, Hhi.
    constructor; try done. by inversion Hv.
  - intros a st st' ws _.
    rewrite exec_call_request, requestWithdrawal_unfold. cbv zeta.
    destruct (exists_ (stake_of (_stakes st) a)) eqn:Hex; [|done].
    cbn [negb]. destruct (max_uint256 <? _); [done|].
    destruct (Z.ltb_spec now (startTimestamp (stake_of (_stakes st) a)
                              + lockDuration (stake_of (_stakes st) a)));
      [done|].
    destruct (withdrawalRequested _) eqn:Hwr; [done|].
    intros [= <- _]. apply rtc_once. by constructor.
  - intros ct pf r IH a st st' ws Hv.
    rewrite exec_call_finalize, finalizeWithdrawal_unfold. cbv zeta.
    destruct (exists_ (stake_of (_stakes st) a)) eqn:Hex; [|done].
    cbn [negb].
    destruct (withdrawalRequested _) eqn:Hwr; [|done]. cbn [negb].
    destruct (fhe_checkSignatures _ _ _) eqn:Hsig; [|done]. cbn [negb].
    destruct (decode_uint128 ct) as [amount|] eqn:Hdec; [|done].
    destruct (Z.ltb_spec (balance st) amount); [done|].
    destruct (exec_script this now r (at_transfer a amount st))
      as [[st2 ws2]|] eqn:Hr; [|done].
    intros [= <- _]. apply IH in Hr; [|done].
    eapply rtc_l; [by eapply step_payout|].
    eapply rtc_trans; [exact Hr|]. apply rtc_once. constructor.
  - intros st st' ws _ [= <- _]. reflexivity.
  - intros st st' ws _ [=].
  - intros s c IHc rest IHr st st' ws Hv. cbn in Hv.
    apply Forall_app in Hv as [Hvc Hvr]. rewrite exec_script_then.
    destruct (exec_call this now s c st) as [[] st1 ws1|e] eqn:Hc.
    + destruct (exec_script this now rest st1) as [[st2 ws2]|] eqn:Hrest;
        [|done].
      intros [= <- _]. eapply rtc_trans; eauto.
    + intros Hrest. eauto.
Qed.

(** What every step keeps, every call keeps. *)
Lemma state_after_keeps (I : State -> Prop) a c st :
  (forall st1 st2, step this now known st1 st2 -> I st1 -> I st2) ->
  Forall known (deposits c) ->
  I st -> I (state_after this now a c st).
Proof.
  intros Hstep Hv Hst. unfold state_after.
  destruct (exec_call this now a c st) as [[] st' ws|e] eqn:Hrun; [|done].
  apply exec_steps in Hrun; [|done].
  induction Hrun; eauto.
Qed.

End StepChains.

Lemma Forall_anything (l : list Z) : Forall (fun _ => True) l.
Proof. by apply Forall_forall. Qed.

(** ** The read functions *)

Lemma hasStake_unfold a st :
  hasStake a st = Ok (exists_ (stake_of (_stakes st) a)) st [].
Proof. reflexivity. Qed.

Lemma getEncryptedAmount_unfold a st :
  getEncryptedAmount a st =
    Ok (if exists_ (stake_of (_stakes st) a)
        then encryptedAmount (stake_of (_stakes st) a) else 0) st [].
Proof.
  unfold getEncryptedAmount, mbind, M_bind, load_stake, FHE_toBytes32.
  by destruct (exists_ (stake_of (_stakes st) a)).
Qed.

Lemma ledger_inv_live m a :
  ledger_inv m -> exists_ (stake_of m a) = true ->
  m !! a = Some (stake_of m a) /\
  MIN_LOCK_DURATION <= lockDuration (stake_of m a) <= MAX_LOCK_DURATION /\
  0 <= startTimestamp (stake_of m a) <= max_uint64.
Proof.
  intros Hinv. unfold stake_of.
  destruct (m !! a) as [d|] eqn:Hd; cbn; [|done].
  intros _. split; [done|]. by apply Hinv in Hd as (_ & ? & ?).
Qed.

(** X1. In every state the contract can reach, the three read functions
    return, leave the state as it is, and agree with each other:
    [getStakeSummary] reports under [exists] what [hasStake] answers and
    under [encryptedAmount] what [getEncryptedAmount] answers.  For an
    account with a record the reported unlock time is the reported start
    plus the reported duration, the duration lies between one day and 365
    days, and the start fits 64 bits. *)
Theorem views_agree `{FHE} (this a : Z) (st : State) :
  reachable this st ->
  exists s,
    getStakeSummary a st = Ok s st [] /\
    hasStake a st = Ok (summary_exists s) st [] /\
    getEncryptedAmount a st = Ok (summary_encryptedAmount s) st [] /\
    (summary_exists s = true ->
       summary_unlockTimestamp s
         = summary_startTimestamp s + summary_lockDuration s /\
       86400 <= summary_lockDuration s <= 31536000 /\
       0 <= summary_startTimestamp s <= 2 ^ 64 - 1).
Proof.
  intros Hreach. pose proof (reachable_inv this st Hreach) as Hinv.
  rewrite getStakeSummary_unfold, hasStake_unfold, getEncryptedAmount_unfold.
  cbv zeta.
  destruct (exists_ (stake_of (_stakes st) a)) eqn:Hex.
  - rewrite well_typed_no_overflow by by apply ledger_inv_typed.
    eexists. split_and!; [reflexivity..|]. cbn. intros _.
    by destruct (ledger_inv_live _ _ Hinv Hex) as (_ & ? & ?).
  - eexists. split_and!; [reflexivity..|]. cbn. done.
Qed.

Lemma views_agree_witness :
  exists s,
    getStakeSummary alice pending = Ok s pending [] /\
    hasStake alice pending = Ok (summary_exists s) pending [] /\
    getEncryptedAmount alice pending
      = Ok (summary_encryptedAmount s) pending [] /\
    (summary_exists s = true ->
       summary_unlockTimestamp s
         = summary_startTimestamp s + summary_lockDuration s /\
       86400 <= summary_lockDuration s <= 31536000 /\
       0 <= summary_startTimestamp s <= 2 ^ 64 - 1).
Proof.
  apply (views_agree vault alice pending).
  apply (reachable_run_txs vault [_; _] deployed). by constructor.
Defined.

(** ** What a successful call does *)

Lemma uint128_small v : 0 <= v <= max_uint128 -> uint128 v = v.
Proof.
  unfold uint128, max_uint128. intros Hv. apply Z.mod_small. lia.
Qed.

(** X2. [stake] by an account without a record, with a duration within
    the bounds and a deposit between 1 and [2^128 - 1], succeeds.
    Afterwards [getStakeSummary] reports the handle of the deposit, the
    block time cut to 64 bits as start, start plus duration as unlock
    time, the duration, no withdrawal request, and that the record
    exists.  The contract's balance has grown by the deposit, the account
    and the contract may use the handle, nothing was made publicly
    decryptable, and the one new event is [StakeCreated], which carries
    the deposit in clear. *)
Theorem stake_creates_record `{FHE} (this now a d v : Z) (st : State) :
  let st' := state_after this now a (Stake d v) st in
  let h := fhe_asEuint128 v in
  exists_ (stake_of (_stakes st) a) = false ->
  86400 <= d <= 31536000 ->
  0 < v <= 2 ^ 128 - 1 ->
  error_of this now a (Stake d v) st = None /\
  getStakeSummary a st'
    = Ok (mkStakeSummary h (uint64 now) (uint64 now + d) d false true) st' [] /\
  balance st' = balance st + v /\
  events st' = events st ++ [StakeCreated a v d h] /\
  (h, a) ∈ allowed st' /\ (h, this) ∈ allowed st' /\
  publiclyDecryptable st' = publiclyDecryptable st.
Proof.
  intros st' h Hex Hd Hv.
  assert (Herr : error_of this now a (Stake d v) st = None).
  { rewrite error_of_stake, Hex.
    destruct (Z.ltb_spec d MIN_LOCK_DURATION), (Z.ltb_spec MAX_LOCK_DURATION d),
      (Z.eqb_spec v 0), (Z.ltb_spec max_uint128 v);
      unfold MIN_LOCK_DURATION, MAX_LOCK_DURATION, days, max_uint128 in *;
      cbn; try done; lia. }
  assert (Hst : st' = staked this a v now d (credit v st))
    by by apply state_after_stake.
  assert (Hu : uint128 v = v) by (apply uint128_small; unfold max_uint128; lia).
  split; [done|]. rewrite Hst. unfold staked, fresh_stake. rewrite Hu.
  fold h. split_and!; try reflexivity.
  - rewrite getStakeSummary_unfold. cbn.
    rewrite stake_of_store, decide_True by done. cbn.
    pose proof (uint64_range now) as Hnow. unfold max_uint64 in Hnow.
    destruct (Z.ltb_spec max_uint256 (uint64 now + d)); [|done].
    unfold max_uint256 in *.
    assert (2 ^ 64 + 31536000 <= 2 ^ 256 - 1) by done. lia.
  - cbn. apply elem_of_union. right. apply elem_of_union. left.
    by apply elem_of_singleton.
  - cbn. apply elem_of_union. left. by apply elem_of_singleton.
Qed.

Lemma stake_creates_record_witness :
  error_of vault 100 alice (Stake 86400 5) deployed = None /\
  getStakeSummary alice staked_once
    = Ok (mkStakeSummary (demo_handle 5) 100 (100 + 86400) 86400 false true)
         staked_once [] /\
  balance staked_once = 0 + 5.
Proof.
  destruct (stake_creates_record vault 100 alice 86400 5 deployed)
    as (Herr & Hsum & Hbal & _); [reflexivity | lia | lia |].
  split_and!; [exact Herr | exact Hsum | exact Hbal].
Defined.

(** X3. [requestWithdrawal] checks, in this order, that the caller has a
    record ([NoActiveStake]), that the unlock time has come
    ([LockPeriodActive], also for a record that is already marked) and
    that the record is not yet marked ([WithdrawalAlreadyRequested]).  A
    failing call changes nothing.  After a call that succeeded, one more
    call at the same time or later fails with
    [WithdrawalAlreadyRequested]. *)
Theorem requestWithdrawal_error_order `{FHE} (this now a : Z) (st : State) :
  let d := stake_of (_stakes st) a in
  let unlock := startTimestamp d + lockDuration d in
  let outcome := error_of this now a RequestWithdrawal st in
  let st' := state_after this now a RequestWithdrawal st in
  well_typed d ->
  (exists_ d = false -> outcome = Some NoActiveStake) /\
  (exists_ d = true -> now < unlock -> outcome = Some LockPeriodActive) /\
  (exists_ d = true -> unlock <= now -> withdrawalRequested d = true ->
     outcome = Some WithdrawalAlreadyRequested) /\
  (outcome <> None -> st' = st) /\
  (outcome = None ->
     forall later, now <= later ->
       error_of this later a RequestWithdrawal st'
         = Some WithdrawalAlreadyRequested).
Proof.
  intros d unlock outcome st' Hty.
  assert (Hout : outcome =
            if negb (exists_ d) then Some NoActiveStake
            else if now <? unlock then Some LockPeriodActive
            else if withdrawalRequested d then Some WithdrawalAlreadyRequested
            else None) by by apply error_of_request.
  split_and!.
  - intros Hex. by rewrite Hout, Hex.
  - intros Hex Hnow. rewrite Hout, Hex. cbn.
    by destruct (Z.ltb_spec now unlock); [|lia].
  - intros Hex Hnow Hwr. rewrite Hout, Hex, Hwr. cbn.
    by destruct (Z.ltb_spec now unlock); [lia|].
  - apply failed_call_keeps_state.
  - intros Hok later Hlater.
    assert (Hst : st' = requested a st) by by apply state_after_request.
    rewrite Hok in Hout.
    destruct (exists_ d) eqn:Hex; [|done]. cbn in Hout.
    destruct (Z.ltb_spec now unlock); [done|].
    assert (Hd' : stake_of (_stakes st') a = mark_requested d).
    { rewrite Hst. unfold requested. cbn.
      by rewrite stake_of_store, decide_True. }
    rewrite error_of_request; rewrite Hd'; [|done]. cbn. fold unlock.
    rewrite Hex. cbn. by destruct (Z.ltb_spec later unlock); [lia|].
Qed.

Lemma requestWithdrawal_error_order_witness :
  error_of vault 86500 bob RequestWithdrawal staked_once = Some NoActiveStake /\
  error_of vault 86499 alice RequestWithdrawal pending = Some LockPeriodActive /\
  error_of vault 86500 alice RequestWithdrawal pending
    = Some WithdrawalAlreadyRequested /\
  error_of vault 90000 alice RequestWithdrawal
    (state_after vault 86500 alice RequestWithdrawal staked_once)
    = Some WithdrawalAlreadyRequested.
Proof.
  assert (Hzero : well_typed (stake_of (_stakes staked_once) bob)).
  { vm_compute. split_and!; discriminate. }
  assert (Hone : well_typed (stake_of (_stakes staked_once) alice)).
  { vm_compute. split_and!; discriminate. }
  assert (Htwo : well_typed (stake_of (_stakes pending) alice)).
  { vm_compute. split_and!; discriminate. }
  split_and!.
  - by apply (proj1 (requestWithdrawal_error_order vault 86500 bob staked_once
                       Hzero)).
  - apply (proj1 (proj2 (requestWithdrawal_error_order vault 86499 alice
                           pending Htwo))); reflexivity.
  - apply (proj1 (proj2 (proj2 (requestWithdrawal_error_order vault 86500
                                  alice pending Htwo)))); reflexivity.
  - apply (proj2 (proj2 (proj2 (proj2 (requestWithdrawal_error_order vault
             86500 alice staked_once Hone))))); [reflexivity|].
    vm_compute. discriminate.
Defined.

(** X4. [finalizeWithdrawal] checks, in this order: that the caller has a
    record ([NoActiveStake]); that it is marked for withdrawal
    ([WithdrawalNotRequested]); that the proof verifies for the record's
    handle and the cleartexts; that the cleartexts hold at least 32 bytes
    whose first word fits 128 bits (otherwise [abi.decode] reverts); and
    that the transfer of the decoded amount goes through, which it does
    not when the contract holds less ("ETH transfer failed").  Whichever
    check fails, the state is what it was before the call. *)
Theorem finalizeWithdrawal_error_order `{FHE}
    (this now a : Z) (ct pf : bytes) (r : Script) (st : State) :
  let d := stake_of (_stakes st) a in
  let outcome := error_of this now a (FinalizeWithdrawal ct pf r) st in
  let verified := fhe_checkSignatures [encryptedAmount d] ct pf in
  (exists_ d = false -> outcome = Some NoActiveStake) /\
  (exists_ d = true -> withdrawalRequested d = false ->
     outcome = Some WithdrawalNotRequested) /\
  (exists_ d = true -> withdrawalRequested d = true -> verified = false ->
     outcome = Some ProofVerificationFailed) /\
  (exists_ d = true -> withdrawalRequested d = true -> verified = true ->
     (length ct < 32)%nat \/ 2 ^ 128 - 1 < be_to_Z (take 32 ct) ->
     outcome = Some AbiDecodeReverted) /\
  (exists_ d = true -> withdrawalRequested d = true -> verified = true ->
     forall amount, decode_uint128 ct = Some amount ->
                    balance st < amount ->
                    outcome = Some transfer_failed) /\
  (outcome <> None ->
     state_after this now a (FinalizeWithdrawal ct pf r) st = st).
Proof.
  intros d outcome verified.
  assert (Hout : outcome =
            match finalizeWithdrawal (exec_script this now r) a ct pf st with
            | Ok _ _ _ => None
            | Revert e => Some e
            end) by reflexivity.
  rewrite finalizeWithdrawal_unfold in Hout. cbv zeta in Hout.
  fold d verified in Hout.
  split_and!.
  - intros Hex. by rewrite Hout, Hex.
  - intros Hex Hwr. by rewrite Hout, Hex, Hwr.
  - intros Hex Hwr Hsig. by rewrite Hout, Hex, Hwr, Hsig.
  - intros Hex Hwr Hsig Hbad. rewrite Hout, Hex, Hwr, Hsig. cbn [negb].
    assert (Hdec : decode_uint128 ct = None).
    { unfold decode_uint128, max_uint128.
      destruct (Nat.ltb_spec (length ct) 32); [done|].
      destruct Hbad as [?|Hbig]; [lia|]. cbv zeta.
      by destruct (Z.leb_spec (be_to_Z (take 32 ct)) (2 ^ 128 - 1)); [lia|]. }
    by rewrite Hdec.
  - intros Hex Hwr Hsig amount Hdec Hbal.
    rewrite Hout, Hex, Hwr, Hsig, Hdec. cbn [negb].
    by destruct (Z.ltb_spec (balance st) amount); [|lia].
  - apply failed_call_keeps_state.
Qed.

Lemma finalizeWithdrawal_error_order_witness :
  error_of vault 86500 bob (FinalizeWithdrawal five good_proof Accept) pending
    = Some NoActiveStake /\
  error_of vault 86500 alice (FinalizeWithdrawal five good_proof Accept)
           staked_once = Some WithdrawalNotRequested /\
  error_of vault 86500 alice (FinalizeWithdrawal five bad_proof Accept)
           pending = Some ProofVerificationFailed /\
  error_of vault 86500 alice (FinalizeWithdrawal five good_proof Accept)
           (debit 1 pending) = Some transfer_failed.
Proof.
  split_and!.
  - by apply (proj1 (finalizeWithdrawal_error_order vault 86500 bob five
                       good_proof Accept pending)).
  - by apply (proj1 (proj2 (finalizeWithdrawal_error_order vault 86500 alice
                              five good_proof Accept staked_once))).
  - by apply (proj1 (proj2 (proj2 (finalizeWithdrawal_error_order vault 86500
                                     alice five bad_proof Accept pending)))).
  - destruct (finalizeWithdrawal_error_order vault 86500 alice five
                good_proof Accept (debit 1 pending))
      as (_ & _ & _ & _ & Hpay & _).
    apply (Hpay eq_refl eq_refl eq_refl 5); reflexivity.
Defined.



(** ** The life of a record *)

Lemma legal_moves w m :
  legal w m ->
  moves w (phase (stake_of m (write_target w)))
          (phase (stake_of (apply_write w m) (write_target w))).
Proof.
  destruct w as [a d|a|a]; cbn; unfold phase.
  - intros (Hex & Hd & Hwr & _). rewrite stake_of_store, decide_True by done.
    by rewrite Hex, Hd, Hwr.
  - intros (Hex & Hwr). rewrite stake_of_store, decide_True by done.
    cbn. by rewrite Hex, Hwr.
  - intros (Hex & Hwr). rewrite stake_of_delete, decide_True by done.
    by rewrite Hex, Hwr.
Qed.

(** X6. A record goes through [Absent], [Active], [Pending] and back to
    [Absent], and through nothing else.  Of the writes to [_stakes] that
    any sequence of transactions commits, nested calls included, each
    takes the slot it writes one move further on that cycle ([stake]
    from [Absent] to [Active], [requestWithdrawal] from [Active] to
    [Pending], [finalizeWithdrawal] from [Pending] to [Absent]) and
    leaves every other slot as it was. *)
Theorem record_lifecycle `{FHE} (this : Z) (txs : list Tx) (st : State) :
  forall before w after,
    history this txs st = before ++ w :: after ->
    let m := replay before (_stakes st) in
    moves w (phase (stake_of m (write_target w)))
            (phase (stake_of (apply_write w m) (write_target w))) /\
    forall x, x <> write_target w ->
              stake_of (apply_write w m) x = stake_of m x.
Proof.
  intros before w after Hws m.
  destruct (history_sound this txs st) as [_ Hl]. rewrite Hws in Hl.
  apply legal_run_at in Hl. split.
  - by apply legal_moves.
  - intros x Hx. by apply stake_of_apply_other.
Qed.

Lemma record_lifecycle_witness :
  moves (MarkRequested alice)
        (phase (stake_of (replay [StoreStake alice (fresh_stake 5 100 86400)] ∅)
                         alice))
        (phase (stake_of (apply_write (MarkRequested alice)
                            (replay [StoreStake alice
                                       (fresh_stake 5 100 86400)] ∅))
                         alice)).
Proof.
  apply (record_lifecycle vault
           [mkTx 100 alice (Stake 86400 5); mkTx 86500 alice RequestWithdrawal]
           deployed [StoreStake alice (fresh_stake 5 100 86400)]
           (MarkRequested alice) [] eq_refl).
Defined.

(** ** What every step keeps *)

Lemma stake_of_None m a : m !! a = None -> stake_of m a = zero_stake.
Proof. unfold stake_of. by intros ->. Qed.

Lemma stake_of_Some m a d : m !! a = Some d -> stake_of m a = d.
Proof. unfold stake_of. by intros ->. Qed.

Lemma stake_of_live m a :
  exists_ (stake_of m a) = true -> m !! a = Some (stake_of m a).
Proof. unfold stake_of. by destruct (m !! a). Qed.

Lemma ledger_inv_absent m a :
  ledger_inv m -> exists_ (stake_of m a) = false -> m !! a = None.
Proof.
  intros Hinv. unfold stake_of. destruct (m !! a) as [d|] eqn:Hd; [|done].
  apply Hinv in Hd as [Hd _]. cbn. congruence.
Qed.

Lemma ledger_inv_empty : ledger_inv ∅.
Proof. intros a d. by rewrite lookup_empty. Qed.

Section Liabilities.
Variable decrypt : Z -> Z.

Lemma liabilities_empty : liabilities decrypt ∅ = 0.
Proof. unfold liabilities. by rewrite map_fold_empty. Qed.

Lemma liabilities_insert m a d :
  m !! a = None ->
  liabilities decrypt (<[a := d]> m)
  = decrypt (encryptedAmount d) + liabilities decrypt m.
Proof.
  intros Ha. unfold liabilities. rewrite map_fold_insert_L; [done| |done].
  intros. lia.
Qed.

Lemma liabilities_delete m a d :
  m !! a = Some d ->
  liabilities decrypt m
  = decrypt (encryptedAmount d) + liabilities decrypt (delete a m).
Proof.
  intros Ha. unfold liabilities.
  rewrite (map_fold_delete_L _ _ a d m); [done| |done].
  intros. lia.
Qed.

Lemma liabilities_update m a d d' :
  m !! a = Some d -> encryptedAmount d' = encryptedAmount d ->
  liabilities decrypt (<[a := d']> m) = liabilities decrypt m.
Proof.
  intros Ha Hd. rewrite <- insert_delete_eq.
  rewrite liabilities_insert by apply lookup_delete_eq.
  rewrite (liabilities_delete m a d) by done. by rewrite Hd.
Qed.

Lemma amounts_inv_delete m a :
  amounts_inv decrypt m -> amounts_inv decrypt (delete a m).
Proof.
  intros Hm x d Hx. apply lookup_delete_Some in Hx as [_ Hx]. eauto.
Qed.

Lemma liabilities_nonneg m :
  amounts_inv decrypt m -> 0 <= liabilities decrypt m.
Proof.
  induction m as [|a d m Ha IH] using map_ind; intros Hm.
  - by rewrite liabilities_empty.
  - rewrite liabilities_insert by done.
    assert (0 < decrypt (encryptedAmount d) <= max_uint128) as [? _].
    { apply (Hm a). by rewrite lookup_insert_eq. }
    assert (0 <= liabilities decrypt m); [|lia].
    apply IH. intros x dx Hx. apply (Hm x).
    rewrite lookup_insert_ne; [done|]. intros ->. congruence.
Qed.

(** No single record stands for more than the contract owes in all. *)
Lemma liabilities_bound m a d :
  amounts_inv decrypt m -> m !! a = Some d ->
  decrypt (encryptedAmount d) <= liabilities decrypt m.
Proof.
  intros Hm Ha. rewrite (liabilities_delete m a d) by done.
  pose proof (liabilities_nonneg (delete a m) (amounts_inv_delete m a Hm)).
  lia.
Qed.

End Liabilities.

Section StepInvariants.
Context `{FHE}.
Variable this : address.

Lemma step_keeps_ledger now known st st' :
  step this now known st st' ->
  ledger_inv (_stakes st) -> ledger_inv (_stakes st').
Proof.
  destruct 1 as [a d v st _ Hex Hd _ _|a st Hex Hwr _|a ct pf amount st Hex Hwr _ _ _
                |a amount h st]; intros Hinv; cbn; [| | |done].
  - apply (legal_inv (StoreStake a (fresh_stake v now d))); [|done].
    cbn. pose proof (uint64_range now). split_and!; try done; lia.
  - by apply (legal_inv (MarkRequested a)).
  - by apply (legal_inv (DeleteStake a)).
Qed.

(** The balance moves as the liabilities do. *)
Lemma step_keeps_backed decrypt base now st st' :
  sound_fhe decrypt ->
  step this now payable st st' ->
  backed decrypt base st -> backed decrypt base st'.
Proof.
  intros [Henc Hdec] Hstep (Hinv & Hamt & Hbal).
  split; [by eapply step_keeps_ledger|].
  destruct Hstep as [a d v st [Hv0 _] Hex Hd Hnz Hmax|a st Hex Hwr _
                    |a ct pf amount st Hex Hwr Hsig Hct _|a amount h st];
    cbn; [| | |done].
  - apply ledger_inv_absent in Hex; [|done].
    assert (Hv : uint128 v = v) by (apply uint128_small; lia).
    assert (Hh : decrypt (fhe_asEuint128 (uint128 v)) = v).
    { rewrite Hv. apply Henc. lia. }
    split.
    + intros x dx. destruct (decide (x = a)) as [->|Hx].
      * rewrite lookup_insert_eq. intros [= <-]. cbn. rewrite Hh. lia.
      * rewrite lookup_insert_ne by done. apply Hamt.
    + rewrite liabilities_insert by done. cbn. rewrite Hh. lia.
  - apply stake_of_live in Hex. split.
    + intros x dx. destruct (decide (x = a)) as [->|Hx].
      * rewrite lookup_insert_eq. intros [= <-]. cbn. by eapply Hamt.
      * rewrite lookup_insert_ne by done. apply Hamt.
    + by rewrite (liabilities_update decrypt _ a (stake_of (_stakes st) a)).
  - apply stake_of_live in Hex. split.
    + by apply amounts_inv_delete.
    + rewrite (liabilities_delete decrypt _ a _ Hex) in Hbal.
      rewrite (Hdec _ _ _ _ Hsig Hct) in Hbal. lia.
Qed.

(** A record is marked only once its unlock time has come. *)
Lemma step_keeps_unlocked now known st st' :
  step this now known st st' ->
  unlocked_by now (_stakes st) -> unlocked_by now (_stakes st').
Proof.
  destruct 1 as [a d v st _ _ _ _ _|a st _ _ Hlock|a ct pf amount st _ _ _ _ _
                |a amount h st]; intros Hm x; cbn; [| | |apply Hm].
  - rewrite stake_of_store. case_decide; [done|apply Hm].
  - rewrite stake_of_store. case_decide as Hx; [|apply Hm].
    subst x. by cbn.
  - rewrite stake_of_delete. case_decide; [done|apply Hm].
Qed.

Lemma unlocked_by_mono t t' m :
  t <= t' -> unlocked_by t m -> unlocked_by t' m.
Proof. intros Ht Hm a Hex Hwr. specialize (Hm a Hex Hwr). lia. Qed.

Lemma step_keeps_access now known st st' :
  step this now known st st' -> access_inv this st -> access_inv this st'.
Proof.
  destruct 1 as [a d v st _ _ _ _ _|a st Hex _ _|a ct pf amount st _ _ _ _ _
                |a amount h st]; intros Hm x; cbn; [| | |apply Hm].
  - rewrite stake_of_store. case_decide as Hx.
    + subst x. intros _. cbn. split_and!; [| |done].
      * apply elem_of_union; right. apply elem_of_union; left.
        by apply elem_of_singleton.
      * apply elem_of_union; left. by apply elem_of_singleton.
    + intros Hex. destruct (Hm x Hex) as (Ho & Ht & Hp).
      split_and!; [| |done]; by do 2 (apply elem_of_union; right).
  - rewrite stake_of_store. case_decide as Hx.
    + subst x. cbn. intros _. destruct (Hm a Hex) as (Ho & Ht & _).
      split_and!; [done|done|]. intros _.
      apply elem_of_union; left. by apply elem_of_singleton.
    + intros Hexx. destruct (Hm x Hexx) as (Ho & Ht & Hp).
      split_and!; [done|done|]. intros Hwr.
      apply elem_of_union; right. by apply Hp.
  - rewrite stake_of_delete. case_decide; [done|apply Hm].
Qed.

Lemma grows_refl st : grows st st.
Proof. by split_and!. Qed.

Lemma step_grows now known st0 st st' :
  step this now known st st' -> grows st0 st -> grows st0 st'.
Proof.
  intros Hstep (Ha & Hp & He).
  assert (Hsub : forall {A} `{Countable A} (X Y Z : gset A),
             X ⊆ Y -> Y ⊆ Z -> X ⊆ Z).
  { intros A ? ? X Y Z HXY HYZ x Hx. by apply HYZ, HXY. }
  assert (Hr : forall {A} `{Countable A} (X Y : gset A), X ⊆ Y ∪ X).
  { intros A ? ? X Y x Hx. apply elem_of_union. by right. }
  destruct Hstep as [a d v st _ _ _ _ _|a st _ _ _|a ct pf amount st _ _ _ _ _
                    |a amount h st]; cbn; split_and!; try done.
  - eapply Hsub; [exact Ha|]. eapply Hsub; apply Hr.
  - by apply prefix_app_r.
  - eapply Hsub; [exact Hp|]. apply Hr.
  - by apply prefix_app_r.
  - by apply prefix_app_r.
Qed.

Lemma run_txs_keeps (known : Z -> Prop) (I : State -> Prop) txs st :
  (forall now st1 st2, step this now known st1 st2 -> I st1 -> I st2) ->
  Forall (fun tx => Forall known (deposits (tx_call tx))) txs ->
  I st -> I (run_txs this txs st).
Proof.
  intros Hstep Hv. revert st.
  induction Hv as [|tx txs Htx _ IH]; intros st Hst; [done|].
  cbn. apply IH. unfold run_tx. eapply state_after_keeps; eauto.
Qed.

Lemma run_txs_keeps_any (I : State -> Prop) txs st :
  (forall now st1 st2, step this now (fun _ => True) st1 st2 ->
                       I st1 -> I st2) ->
  I st -> I (run_txs this txs st).
Proof.
  intros Hstep. apply run_txs_keeps with (known := fun _ => True); [done|].
  apply Forall_forall. intros tx _. apply Forall_anything.
Qed.

Lemma reachable_at_unlocked t st :
  reachable_at this t st -> unlocked_by t (_stakes st).
Proof.
  induction 1 as [t st Hempty|t st tx _ IH Ht].
  - intros a. rewrite Hempty. by rewrite stake_of_None.
  - unfold run_tx.
    apply (state_after_keeps this (tx_timestamp tx) (fun _ => True)
             (fun s => unlocked_by (tx_timestamp tx) (_stakes s))).
    + intros st1 st2. apply step_keeps_unlocked.
    + apply Forall_anything.
    + by apply unlocked_by_mono with t.
Qed.

Lemma run_txs_backed decrypt txs st0 :
  sound_fhe decrypt ->
  _stakes st0 = ∅ ->
  Forall (fun tx => Forall payable (deposits (tx_call tx))) txs ->
  backed decrypt (balance st0) (run_txs this txs st0).
Proof.
  intros Hfhe Hempty Hv.
  apply run_txs_keeps with (known := payable); [|done|].
  - intros now st1 st2. by apply step_keeps_backed.
  - split_and!; rewrite Hempty.
    + apply ledger_inv_empty.
    + intros a d. by rewrite lookup_empty.
    + rewrite liabilities_empty. lia.
Qed.

End StepInvariants.

Lemma backed_covers decrypt base st a :
  backed decrypt base st -> 0 <= base ->
  exists_ (stake_of (_stakes st) a) = true ->
  decrypt (encryptedAmount (stake_of (_stakes st) a)) <= balance st.
Proof.
  intros (_ & Hamt & Hbal) Hbase Hex. apply stake_of_live in Hex.
  pose proof (liabilities_bound decrypt _ a _ Hamt Hex). lia.
Qed.

Lemma demo_sound : sound_fhe demo_decrypt.
Proof.
  split.
  - intros v _. cbn. unfold demo_decrypt, demo_handle. lia.
  - intros h ct pf v. cbn. destruct pf as [|b [|]]; try done.
    intros Hc Hd. rewrite Hd in Hc.
    apply andb_true_iff in Hc as [_ Hc]. apply Z.eqb_eq in Hc.
    unfold demo_decrypt, demo_handle in *. lia.
Qed.

(** ** Funds *)

(** X7. The contract always holds what it owes.  Let the FHE library be
    sound: a handle decrypts to the cleartext it was made from, and a
    decryption proof verifies only for the cleartext of its handle.
    Then after any transactions from a deployment, with whatever calls
    the recipients of payouts nest, the balance is the balance at
    deployment plus the sum of the amounts behind the live records;
    every live record stands for an amount between one wei and
    [2^128 - 1]; and no record stands for more than the contract holds
    (given it did not start in debt). *)
Theorem funds_conserved `{FHE} (decrypt : Z -> Z) (this : Z)
    (txs : list Tx) (st0 : State) :
  sound_fhe decrypt ->
  _stakes st0 = ∅ ->
  Forall (fun tx => Forall payable (deposits (tx_call tx))) txs ->
  let st := run_txs this txs st0 in
  balance st = balance st0 + liabilities decrypt (_stakes st) /\
  forall a,
    let d := stake_of (_stakes st) a in
    exists_ d = true ->
    0 < decrypt (encryptedAmount d) <= max_uint128 /\
    (0 <= balance st0 -> decrypt (encryptedAmount d) <= balance st).
Proof.
  intros Hfhe Hempty Hv st.
  pose proof (run_txs_backed this decrypt txs st0 Hfhe Hempty Hv) as Hb.
  fold st in Hb. split; [apply Hb|].
  intros a d Hex. split.
  - destruct Hb as (_ & Hamt & _). apply stake_of_live in Hex.
    by eapply Hamt.
  - intros H0. by apply (backed_covers decrypt (balance st0)).
Qed.

Lemma funds_conserved_witness :
  let st := run_txs vault [mkTx 100 alice (Stake 86400 5);
                           mkTx 200 bob (Stake 172800 7);
                           mkTx 86500 alice RequestWithdrawal] deployed in
  balance st = balance deployed + liabilities demo_decrypt (_stakes st).
Proof.
  apply (funds_conserved demo_decrypt vault
           [mkTx 100 alice (Stake 86400 5); mkTx 200 bob (Stake 172800 7);
            mkTx 86500 alice RequestWithdrawal] deployed).
  - exact demo_sound.
  - reflexivity.
  - unfold payable, max_uint256. repeat constructor; cbn; lia.
Defined.

(** ** Time *)

(** X8. Nobody is paid before their lock has run out.  In a history
    whose block times never go back, a [finalizeWithdrawal] that
    succeeds finds a record whose start plus duration is at most the
    block time of an earlier transaction, hence at most its own. *)
Theorem no_payout_before_unlock `{FHE} (this t now a : Z)
    (ct pf : bytes) (r : Script) (st : State) :
  reachable_at this t st -> t <= now ->
  error_of this now a (FinalizeWithdrawal ct pf r) st = None ->
  let d := stake_of (_stakes st) a in
  exists_ d = true /\ withdrawalRequested d = true /\
  startTimestamp d + lockDuration d <= t /\
  startTimestamp d + lockDuration d <= now.
Proof.
  intros Hst Ht Herr d. unfold error_of in Herr.
  rewrite exec_call_finalize, finalizeWithdrawal_unfold in Herr.
  cbv zeta in Herr. fold d in Herr.
  destruct (exists_ d) eqn:Hex; [|done]. cbn [negb] in Herr.
  destruct (withdrawalRequested d) eqn:Hwr; [|done].
  pose proof (reachable_at_unlocked this t st Hst a Hex Hwr) as Hlock.
  fold d in Hlock. split_and!; try done. lia.
Qed.

Lemma no_payout_before_unlock_witness :
  startTimestamp (stake_of (_stakes pending) alice)
  + lockDuration (stake_of (_stakes pending) alice) <= 86500.
Proof.
  apply (no_payout_before_unlock vault 86500 86500 alice five good_proof
           Accept pending).
  - apply (reachable_at_tx vault 100 staked_once
             (mkTx 86500 alice RequestWithdrawal)); [|by cbn].
    apply (reachable_at_tx vault 0 deployed (mkTx 100 alice (Stake 86400 5)));
      [|by cbn].
    by apply reachable_at_deployed.
  - reflexivity.
  - reflexivity.
Defined.

(** ** Access rights and the event log *)

(** X9. In every state reached from a deployment, the handle of a live
    record may be used by the record's owner and by the contract, and
    the handle of a record marked for withdrawal has been made publicly
    decryptable. *)
Theorem handles_accessible `{FHE} (this : Z) (txs : list Tx) (st0 : State) :
  _stakes st0 = ∅ ->
  access_inv this (run_txs this txs st0).
Proof.
  intros Hempty. apply run_txs_keeps_any.
  - intros now st1 st2. apply step_keeps_access.
  - intros a. rewrite Hempty. by rewrite stake_of_None.
Qed.

Lemma handles_accessible_witness : access_inv vault pending.
Proof.
  apply (handles_accessible vault
           [mkTx 100 alice (Stake 86400 5); mkTx 86500 alice RequestWithdrawal]
           deployed).
  reflexivity.
Defined.

(** X10. The contract takes nothing back.  Over any transactions, from
    any state, the rights granted on handles and the set of publicly
    decryptable handles only grow, and the event log is extended at its
    end: what was logged stays logged, in the same order. *)
Theorem grants_and_events_only_grow `{FHE} (this : Z) (txs : list Tx)
    (st : State) :
  grows st (run_txs this txs st).
Proof.
  apply run_txs_keeps_any.
  - intros now st1 st2. apply step_grows.
  - apply grows_refl.
Qed.

(** ** From stake to payout *)

Section Cycle.
Context `{FHE}.
Variable this : address.

Lemma finalize_accept now a ct pf st amount :
  let d := stake_of (_stakes st) a in
  exists_ d = true -> withdrawalRequested d = true ->
  fhe_checkSignatures [encryptedAmount d] ct pf = true ->
  decode_uint128 ct = Some amount ->
  amount <= balance st ->
  exec_call this now a (FinalizeWithdrawal ct pf Accept) st
  = Ok tt (log_event (WithdrawalFinalized a amount (encryptedAmount d))
                     (at_transfer a amount st))
       [DeleteStake a].
Proof.
  intros d Hex Hwr Hsig Hdec Hbal.
  rewrite exec_call_finalize, finalizeWithdrawal_unfold. cbv zeta. fold d.
  rewrite Hex, Hwr, Hsig, Hdec. cbn [negb].
  by destruct (Z.ltb_spec (balance st) amount); [lia|].
Qed.

Lemma stake_guards now a d v st :
  error_of this now a (Stake d v) st = None ->
  exists_ (stake_of (_stakes st) a) = false /\
  MIN_LOCK_DURATION <= d <= MAX_LOCK_DURATION /\ v <> 0 /\ v <= max_uint128.
Proof.
  rewrite error_of_stake.
  destruct (exists_ _); [done|].
  destruct (Z.ltb_spec d MIN_LOCK_DURATION); [done|].
  destruct (Z.ltb_spec MAX_LOCK_DURATION d); [done|].
  destruct (Z.eqb_spec v 0); [done|].
  destruct (Z.ltb_spec max_uint128 v); [done|]. intros _. split_and!; done.
Qed.

Lemma stake_passes now a d v st :
  exists_ (stake_of (_stakes st) a) = false ->
  MIN_LOCK_DURATION <= d <= MAX_LOCK_DURATION -> 0 < v <= max_uint128 ->
  error_of this now a (Stake d v) st = None.
Proof.
  intros Hex Hd Hv. rewrite error_of_stake, Hex.
  destruct (Z.ltb_spec d MIN_LOCK_DURATION); [lia|].
  destruct (Z.ltb_spec MAX_LOCK_DURATION d); [lia|].
  destruct (Z.eqb_spec v 0); [lia|].
  by destruct (Z.ltb_spec max_uint128 v); [lia|].
Qed.

Lemma fresh_stake_typed v now d :
  MIN_LOCK_DURATION <= d <= MAX_LOCK_DURATION ->
  well_typed (fresh_stake v now d).
Proof.
  intros Hd. pose proof (uint64_range now). split; [|done]. cbn.
  unfold MIN_LOCK_DURATION, MAX_LOCK_DURATION, days, max_uint64 in *. lia.
Qed.

Lemma staked_record a v now d st :
  stake_of (_stakes (staked this a v now d st)) a = fresh_stake v now d.
Proof. cbn. by rewrite stake_of_store, decide_True. Qed.

End Cycle.

(** X11. The lock is counted from the start time as stored, which is the
    block time cut to 64 bits.  After a successful [stake] at block time
    [now], [requestWithdrawal] at block time [t] fails with
    [LockPeriodActive] exactly when [t < uint64 now + d].  So for a block
    time that fits 64 bits the lock lasts until [now + d]; for one of
    [2^64 + d] or more the cut start lies so far back that the record is
    unlocked from the block it was made in. *)
Theorem lock_runs_from_stored_start `{FHE} (this now t a d v : Z)
    (st : State) :
  error_of this now a (Stake d v) st = None ->
  let st1 := state_after this now a (Stake d v) st in
  error_of this t a RequestWithdrawal st1
    = (if t <? uint64 now + d then Some LockPeriodActive else None) /\
  (0 <= now <= max_uint64 -> t < now + d ->
   error_of this t a RequestWithdrawal st1 = Some LockPeriodActive) /\
  (2 ^ 64 + d <= now -> now <= t ->
   error_of this t a RequestWithdrawal st1 = None).
Proof.
  intros Hs st1. pose proof (stake_guards this now a d v st Hs) as (_ & Hd & _).
  assert (Hrec : stake_of (_stakes st1) a = fresh_stake v now d).
  { subst st1. rewrite state_after_stake by done. apply staked_record. }
  assert (Herr : error_of this t a RequestWithdrawal st1
                 = if t <? uint64 now + d then Some LockPeriodActive
                   else None).
  { rewrite error_of_request; rewrite Hrec; [done|].
    by apply fresh_stake_typed. }
  split_and!; [done| |]; rewrite Herr.
  - intros Hnow Ht. unfold uint64, max_uint64 in *.
    rewrite Z.mod_small by lia. by destruct (Z.ltb_spec t (now + d)); [|lia].
  - intros Hnow Ht. pose proof (uint64_range now). unfold max_uint64 in *.
    by destruct (Z.ltb_spec t (uint64 now + d)); [lia|].
Qed.

Lemma lock_runs_from_stored_start_witness :
  error_of vault (2 ^ 64 + 86400) alice RequestWithdrawal
    (state_after vault (2 ^ 64 + 86400) alice (Stake 86400 5) deployed)
  = None.
Proof.
  destruct (lock_runs_from_stored_start vault (2 ^ 64 + 86400)
              (2 ^ 64 + 86400) alice 86400 5 deployed eq_refl)
    as (_ & _ & Hwrap).
  apply Hwrap; reflexivity.
Defined.

(** X12. What goes in comes out.  Let the FHE library be sound.  An
    account without a record stakes [v] for a duration [d] within the
    bounds, asks for its withdrawal once the lock is over, and finalizes
    with cleartexts and a proof that verify for the handle of its
    deposit, taking the payment without calling back.  Then all three
    calls succeed, the cleartexts decode to [v], the payout is [v], the
    balance is what it was before the stake, and so is the whole of
    [_stakes]. *)
Theorem stake_round_trip `{FHE} (decrypt : Z -> Z)
    (this now t1 t2 a d v amount : Z) (ct pf : bytes) (st : State) :
  sound_fhe decrypt ->
  reachable this st ->
  0 <= balance st ->
  exists_ (stake_of (_stakes st) a) = false ->
  86400 <= d <= 31536000 ->
  0 < v <= 2 ^ 128 - 1 ->
  uint64 now + d <= t1 ->
  fhe_checkSignatures [fhe_asEuint128 v] ct pf = true ->
  decode_uint128 ct = Some amount ->
  let st1 := state_after this now a (Stake d v) st in
  let st2 := state_after this t1 a RequestWithdrawal st1 in
  let payout := FinalizeWithdrawal ct pf Accept in
  let st3 := state_after this t2 a payout st2 in
  error_of this now a (Stake d v) st = None /\
  error_of this t1 a RequestWithdrawal st1 = None /\
  error_of this t2 a payout st2 = None /\
  amount = v /\
  last (events st3) = Some (WithdrawalFinalized a v (fhe_asEuint128 v)) /\
  balance st3 = balance st /\
  _stakes st3 = _stakes st.
Proof.
  intros [Henc Hdec] Hst Hbal Hex Hd Hv Ht Hsig Hct st1 st2 payout st3.
  assert (Hd' : MIN_LOCK_DURATION <= d <= MAX_LOCK_DURATION).
  { unfold MIN_LOCK_DURATION, MAX_LOCK_DURATION, days. lia. }
  assert (Hv' : 0 < v <= max_uint128) by (unfold max_uint128; lia).
  assert (Hu : uint128 v = v) by (apply uint128_small; lia).
  assert (Hamount : amount = v).
  { rewrite <- (Hdec _ _ _ _ Hsig Hct). apply Henc. lia. }
  subst amount.
  assert (Hs : error_of this now a (Stake d v) st = None)
    by by apply stake_passes.
  assert (Hst1 : st1 = staked this a v now d (credit v st))
    by by apply state_after_stake.
  assert (Hrec1 : stake_of (_stakes st1) a = fresh_stake v now d).
  { rewrite Hst1. apply staked_record. }
  assert (Hr : error_of this t1 a RequestWithdrawal st1 = None).
  { rewrite error_of_request; rewrite Hrec1; [|by apply fresh_stake_typed].
    cbn. by destruct (Z.ltb_spec t1 (uint64 now + d)); [lia|]. }
  assert (Hst2 : st2 = requested a st1) by by apply state_after_request.
  assert (Hrec2 : stake_of (_stakes st2) a
                  = mark_requested (fresh_stake v now d)).
  { rewrite Hst2. cbn. by rewrite stake_of_store, decide_True, Hrec1. }
  assert (Hbal2 : balance st2 = balance st + v).
  { rewrite Hst2, Hst1. reflexivity. }
  assert (Hrun : exec_call this t2 a payout st2
                 = Ok tt (log_event (WithdrawalFinalized a v (fhe_asEuint128 v))
                                    (at_transfer a v st2))
                      [DeleteStake a]).
  { unfold payout. rewrite (finalize_accept this t2 a ct pf st2 v);
      rewrite ?Hrec2; cbn; rewrite ?Hu; try done. lia. }
  assert (Hst3 : st3 = log_event (WithdrawalFinalized a v (fhe_asEuint128 v))
                                 (at_transfer a v st2)).
  { subst st3. unfold state_after. by rewrite Hrun. }
  split_and!; try done.
  - unfold error_of. by rewrite Hrun.
  - rewrite Hst3. cbn. by rewrite last_snoc.
  - rewrite Hst3. cbn. lia.
  - rewrite Hst3, Hst2, Hst1. cbn.
    apply reachable_inv in Hst.
    pose proof (ledger_inv_absent _ a Hst Hex) as Ha.
    rewrite !insert_insert_eq, delete_insert_eq. by apply delete_id.
Qed.

Lemma stake_round_trip_witness :
  let st1 := state_after vault 100 alice (Stake 86400 5) deployed in
  let st2 := state_after vault 86500 alice RequestWithdrawal st1 in
  let st3 := state_after vault 86500 alice
               (FinalizeWithdrawal five good_proof Accept) st2 in
  balance st3 = balance deployed /\ _stakes st3 = _stakes deployed.
Proof.
  destruct (stake_round_trip demo_decrypt vault 100 86500 86500 alice 86400
              5 5 five good_proof deployed)
    as (_ & _ & _ & _ & _ & Hbal & Hrec).
  - exact demo_sound.
  - by apply reachable_deployed.
  - reflexivity.
  - reflexivity.
  - lia.
  - lia.
  - by vm_compute.
  - reflexivity.
  - reflexivity.
  - split; [exact Hbal | exact Hrec].
Defined.

(** ** The event log *)

Section Announcements.
Context `{FHE}.
Variable this : address.





End Announcements.


(** The order does differ: Alice stakes again from inside her payout, and
    the log has her new [StakeCreated] before the [WithdrawalFinalized]
    of the record that was deleted first. *)
Example restake_logged_before_payout :
  let payout := FinalizeWithdrawal five good_proof
                  (Then alice (Stake 86400 3) Accept) in
  writes_of vault 86500 alice payout pending
    = [DeleteStake alice; StoreStake alice (fresh_stake 3 86500 86400)] /\
  map announced (drop 2 (events (state_after vault 86500 alice payout pending)))
    = [Created alice; Removed alice].
Proof. by vm_compute. Qed.

(** ** Solvency at the payout *)

(** X14. The contract never fails to pay for lack of funds.  Let the FHE
    library be sound, and take any state reached from a deployment that
    was not in debt.  When an account's record is marked, the proof
    verifies and the cleartexts decode to [amount], the contract holds
    at least [amount]: [finalizeWithdrawal] succeeds unless the
    recipient's own code fails, and a recipient that just takes the
    payment is always paid. *)
Theorem payout_always_covered `{FHE} (decrypt : Z -> Z) (this now a : Z)
    (txs : list Tx) (st0 : State) (ct pf : bytes) (r : Script) (amount : Z) :
  sound_fhe decrypt ->
  _stakes st0 = ∅ -> 0 <= balance st0 ->
  Forall (fun tx => Forall payable (deposits (tx_call tx))) txs ->
  let st := run_txs this txs st0 in
  let d := stake_of (_stakes st) a in
  exists_ d = true -> withdrawalRequested d = true ->
  fhe_checkSignatures [encryptedAmount d] ct pf = true ->
  decode_uint128 ct = Some amount ->
  amount <= balance st /\
  (error_of this now a (FinalizeWithdrawal ct pf r) st = None <->
   exec_script this now r (at_transfer a amount st) <> None) /\
  error_of this now a (FinalizeWithdrawal ct pf Accept) st = None.
Proof.
  intros Hfhe Hempty Hbase Hv st d Hex Hwr Hsig Hct.
  pose proof (run_txs_backed this decrypt txs st0 Hfhe Hempty Hv) as Hb.
  fold st in Hb.
  assert (Hcov : amount <= balance st).
  { pose proof (backed_covers decrypt _ st a Hb Hbase Hex) as Hc.
    fold d in Hc. destruct Hfhe as [_ Hdec].
    by rewrite (Hdec _ _ _ _ Hsig Hct) in Hc. }
  split_and!; [done| |].
  - unfold error_of.
    rewrite exec_call_finalize, finalizeWithdrawal_unfold. cbv zeta.
    fold d. rewrite Hex, Hwr, Hsig, Hct. cbn [negb].
    destruct (Z.ltb_spec (balance st) amount); [lia|].
    by destruct (exec_script this now r _) as [[st2 ws2]|].
  - unfold error_of.
    by rewrite (finalize_accept this now a ct pf st amount).
Qed.

Lemma payout_always_covered_witness :
  error_of vault 86500 alice (FinalizeWithdrawal five good_proof Accept)
           pending = None.
Proof.
  apply (payout_always_covered demo_decrypt vault 86500 alice
           [mkTx 100 alice (Stake 86400 5); mkTx 86500 alice RequestWithdrawal]
           deployed five good_proof Accept 5).
  - exact demo_sound.
  - reflexivity.
  - reflexivity.
  - unfold payable, max_uint256. repeat constructor; cbn; lia.
  - reflexivity.
  - reflexivity.
  - by vm_compute.
  - reflexivity.
Defined.
